(** * Response cache plugin: cache-key derivation and session-aware policy

    A shallow embedding of
    [packages/apollo-server-plugin-response-cache/src/ApolloServerPluginResponseCache.ts]
    together with the request and response shapes of
    [packages/apollo-server-core/src/requestPipelineAPI.ts].

    Layout:
    - [Sha256]: the digest behind [sha] (Node's [createHash('sha256')]),
      written from FIPS 180-4 and checked against its test vectors;
    - [Json]: JSON values and [JSON.stringify];
    - [Heap]: JavaScript objects held by reference, and how [JSON.stringify]
      walks them;
    - [Plugin]: the plugin itself ([cacheKeyString], [cacheGet],
      [cacheSetInBackground], [executor], [willSendResponse]);
    - the properties of the plugin. *)

From stdpp Require Import gmap strings pretty list.
From Stdlib Require Import ZArith Ascii.

Set Warnings "-register-all".

(** Lower-case hexadecimal digits, shared by the digest and by the
    [\u00XX] escapes of [JSON.stringify]. *)
Definition hexdigit (n : Z) : ascii :=
  match n with
  | 0 => "0" | 1 => "1" | 2 => "2" | 3 => "3" | 4 => "4" | 5 => "5"
  | 6 => "6" | 7 => "7" | 8 => "8" | 9 => "9" | 10 => "a" | 11 => "b"
  | 12 => "c" | 13 => "d" | 14 => "e" | _ => "f"
  end%char%Z.

Definition DQUOTE : ascii := "034"%char.
Definition BACKSLASH : ascii := "092"%char.

(** Writing expected JSON texts in examples: an apostrophe stands for the
    double quote. *)
Fixpoint sq (s : string) : string :=
  match s with
  | EmptyString => EmptyString
  | String c s' => String (if decide (c = "'"%char) then DQUOTE else c) (sq s')
  end.

Module Sha256.
Local Open Scope Z_scope.

(* integer cube root by bisection: the largest r with r^3 <= n, for n < 2^(3*bits) *)
Fixpoint icbrt_go (bits : nat) (r n : Z) : Z :=
  match bits with
  | O => r
  | S b => let c := r + 2 ^ Z.of_nat b in
           icbrt_go b (if decide (c * c * c <= n) then c else r) n
  end.
Definition icbrt (n : Z) : Z := icbrt_go 48 0 n.

Definition primes64 : list Z :=
  [2;3;5;7;11;13;17;19;23;29;31;37;41;43;47;53;59;61;67;71;73;79;83;89;97;101;
   103;107;109;113;127;131;137;139;149;151;157;163;167;173;179;181;191;193;197;
   199;211;223;227;229;233;239;241;251;257;263;269;271;277;281;283;293;307;311].

Definition K : list Z :=
  Eval vm_compute in map (λ p, icbrt (p * 2 ^ 96) mod 2 ^ 32) primes64.
Definition H0 : list Z :=
  Eval vm_compute in map (λ p, Z.sqrt (p * 2 ^ 64) mod 2 ^ 32) (take 8 primes64).

Definition w32 (x : Z) : Z := Z.land x 4294967295.
Definition add32 (x y : Z) : Z := w32 (x + y).
Definition rotr (n x : Z) : Z := Z.lor (Z.shiftr x n) (w32 (Z.shiftl x (32 - n))).
Definition Ch (x y z : Z) : Z := Z.lxor (Z.land x y) (Z.land (Z.lxor x 4294967295) z).
Definition Maj (x y z : Z) : Z := Z.lxor (Z.lxor (Z.land x y) (Z.land x z)) (Z.land y z).
Definition bsig0 (x : Z) : Z := Z.lxor (Z.lxor (rotr 2 x) (rotr 13 x)) (rotr 22 x).
Definition bsig1 (x : Z) : Z := Z.lxor (Z.lxor (rotr 6 x) (rotr 11 x)) (rotr 25 x).
Definition ssig0 (x : Z) : Z := Z.lxor (Z.lxor (rotr 7 x) (rotr 18 x)) (Z.shiftr x 3).
Definition ssig1 (x : Z) : Z := Z.lxor (Z.lxor (rotr 17 x) (rotr 19 x)) (Z.shiftr x 10).

(* the message as octets, then FIPS 180-4 padding: 0x80, zeros, 64-bit length *)
Fixpoint octets (s : string) : list Z :=
  match s with
  | EmptyString => []
  | String c s' => Z.of_N (N_of_ascii c) :: octets s'
  end.

Definition be_bytes (n : nat) (x : Z) : list Z :=
  map (λ i, Z.land (Z.shiftr x (8 * Z.of_nat i)) 255) (rev (seq 0 n)).

Definition pad (m : list Z) : list Z :=
  let len := Z.of_nat (length m) in
  let zeros := Z.to_nat ((55 - len) mod 64) in
  m ++ 128 :: replicate zeros 0 ++ be_bytes 8 (8 * len).

Fixpoint words (fuel : nat) (bs : list Z) : list Z :=
  match fuel, bs with
  | S f, b0 :: b1 :: b2 :: b3 :: bs' =>
      (Z.shiftl b0 24 + Z.shiftl b1 16 + Z.shiftl b2 8 + b3) :: words f bs'
  | _, _ => []
  end.

Fixpoint blocks (fuel : nat) (ws : list Z) : list (list Z) :=
  match fuel, ws with
  | S f, _ :: _ => take 16 ws :: blocks f (drop 16 ws)
  | _, _ => []
  end.

(* message schedule; [rw] holds the words so far, most recent first *)
Fixpoint extend (n : nat) (rw : list Z) : list Z :=
  match n with
  | O => rw
  | S n' =>
      let w := add32 (add32 (ssig1 (rw !!! 1%nat)) (rw !!! 6%nat))
                     (add32 (ssig0 (rw !!! 14%nat)) (rw !!! 15%nat)) in
      extend n' (w :: rw)
  end.
Definition schedule (block : list Z) : list Z := rev (extend 48 (rev block)).

Record regs := Regs { ra : Z; rb : Z; rc : Z; rd : Z; re : Z; rf : Z; rg : Z; rh : Z }.

Definition round (s : regs) (kw : Z * Z) : regs :=
  let t1 := add32 (add32 (add32 (rh s) (bsig1 (re s))) (Ch (re s) (rf s) (rg s)))
                  (add32 kw.1 kw.2) in
  let t2 := add32 (bsig0 (ra s)) (Maj (ra s) (rb s) (rc s)) in
  Regs (add32 t1 t2) (ra s) (rb s) (rc s) (add32 (rd s) t1) (re s) (rf s) (rg s).

Definition compress (h : regs) (block : list Z) : regs :=
  let s := foldl round h (zip K (schedule block)) in
  Regs (add32 (ra h) (ra s)) (add32 (rb h) (rb s)) (add32 (rc h) (rc s))
       (add32 (rd h) (rd s)) (add32 (re h) (re s)) (add32 (rf h) (rf s))
       (add32 (rg h) (rg s)) (add32 (rh h) (rh s)).

Definition init : regs :=
  Regs (H0 !!! 0%nat) (H0 !!! 1%nat) (H0 !!! 2%nat) (H0 !!! 3%nat)
       (H0 !!! 4%nat) (H0 !!! 5%nat) (H0 !!! 6%nat) (H0 !!! 7%nat).

Definition hash (s : string) : regs :=
  let bs := pad (octets s) in
  foldl compress init (blocks (length bs) (words (length bs) bs)).

(* digest('hex'): lower-case hexadecimal, most significant nibble first *)
Definition nibble (x : Z) (i : Z) : ascii := hexdigit (Z.land (Z.shiftr x (4 * i)) 15).

Definition hex32 (x : Z) (rest : string) : string :=
  String (nibble x 7) (String (nibble x 6) (String (nibble x 5) (String (nibble x 4)
  (String (nibble x 3) (String (nibble x 2) (String (nibble x 1) (String (nibble x 0) rest))))))).

Definition hex_digest (r : regs) : string :=
  hex32 (ra r) (hex32 (rb r) (hex32 (rc r) (hex32 (rd r)
  (hex32 (re r) (hex32 (rf r) (hex32 (rg r) (hex32 (rh r) EmptyString))))))).

Definition sha256_hex (s : string) : string := hex_digest (hash s).

End Sha256.

(** * JSON values and [JSON.stringify] *)
Module Json.

(** Numbers are restricted to integers (a double prints as its shortest
    decimal form; for an integer below 2^53 that is the decimal numeral). *)
Inductive json :=
  | JUndefined
  | JNull
  | JBool (b : bool)
  | JNum (n : Z)
  | JStr (s : string)
  | JArr (elems : list json)
  | JObj (props : list (string * json)).

Definition hex2 (c : ascii) : string :=
  let n := Z.of_N (N_of_ascii c) in
  String (hexdigit (n / 16)) (String (hexdigit (n mod 16)) EmptyString).

(** QuoteJSONString: the two-character escapes, [\u00XX] for the other
    control characters, every other character as it is. *)
Definition escape_char (c : ascii) : string :=
  match N_of_ascii c with
  | 8 => String BACKSLASH "b"
  | 9 => String BACKSLASH "t"
  | 10 => String BACKSLASH "n"
  | 12 => String BACKSLASH "f"
  | 13 => String BACKSLASH "r"
  | 34 => String BACKSLASH (String DQUOTE EmptyString)
  | 92 => String BACKSLASH (String BACKSLASH EmptyString)
  | n => if decide (n < 32)%N then String BACKSLASH ("u00" +:+ hex2 c)
         else String c EmptyString
  end%N.

Fixpoint escape (s : string) : string :=
  match s with
  | EmptyString => EmptyString
  | String c s' => escape_char c +:+ escape s'
  end.

Definition quote (s : string) : string :=
  String DQUOTE (escape s +:+ String DQUOTE EmptyString).

Fixpoint join (sep : string) (l : list string) : string :=
  match l with
  | [] => EmptyString
  | [x] => x
  | x :: l' => x +:+ sep +:+ join sep l'
  end.

(** SerializeJSONProperty. Inside an array [undefined] prints as [null];
    a property whose value is [undefined] is left out of its object. *)
Fixpoint ser (j : json) : string :=
  match j with
  | JUndefined | JNull => "null"
  | JBool true => "true"
  | JBool false => "false"
  | JNum n => pretty n
  | JStr s => quote s
  | JArr elems => "[" +:+ join "," (map ser elems) +:+ "]"
  | JObj props =>
      "{" +:+ join ","
        ((fix members (ps : list (string * json)) : list string :=
            match ps with
            | [] => []
            | (k, JUndefined) :: ps' => members ps'
            | (k, v) :: ps' => (quote k +:+ ":" +:+ ser v) :: members ps'
            end) props) +:+ "}"
  end.

(** [JSON.stringify(v)]: [undefined] at the top has no JSON text. *)
Definition JSON_stringify (j : json) : option string :=
  match j with
  | JUndefined => None
  | _ => Some (ser j)
  end.

End Json.

(** * Results of fallible code *)

(** What a [throw] (or a rejected promise, once awaited) carries. *)
Inductive exn :=
  | TypeError (msg : string)
  | Error (msg : string)
  | OutOfFuel.

Inductive result (A : Type) :=
  | Ok (a : A)
  | Throw (e : exn).
Arguments Ok {A} a.
Arguments Throw {A} e.

Global Instance result_ret : MRet result := λ A a, Ok a.
Global Instance result_bind : MBind result := λ A B k m,
  match m with
  | Ok a => k a
  | Throw e => Throw e
  end.

Fixpoint result_mapM {A B} (f : A → result B) (l : list A) : result (list B) :=
  match l with
  | [] => Ok []
  | a :: l' => b ← f a; bs ← result_mapM f l'; Ok (b :: bs)
  end.

(** * Objects held by reference *)
Module Heap.
Import Json.

Definition loc := positive.

Inductive value :=
  | VUndefined
  | VNull
  | VBool (b : bool)
  | VNum (n : Z)
  | VStr (s : string)
  | VRef (l : loc).

Inductive object :=
  | HObject (props : list (string * value))
  | HArray (elems : list value).

Abbreviation heap := (gmap loc object).

Definition circular : exn := TypeError "Converting circular structure to JSON".

(** A reference to no object cannot arise in JavaScript; the model stops
    there. *)
Definition dangling : exn := Error "reference to no object".

(** The JSON value [JSON.stringify] sees when it walks [v]: [stack] holds
    the objects being serialized, and meeting one of them again is the
    TypeError for a circular structure. *)
Fixpoint view (fuel : nat) (stack : list loc) (h : heap) (v : value) : result json :=
  match v with
  | VUndefined => Ok JUndefined
  | VNull => Ok JNull
  | VBool b => Ok (JBool b)
  | VNum n => Ok (JNum n)
  | VStr s => Ok (JStr s)
  | VRef l =>
      match fuel with
      | O => Throw OutOfFuel
      | S fuel' =>
          if decide (l ∈ stack) then Throw circular
          else match h !! l with
               | None => Throw dangling
               | Some (HObject props) =>
                   ps ← result_mapM
                          (λ kv, j ← view fuel' (l :: stack) h kv.2; Ok (kv.1, j))
                          props;
                   Ok (JObj ps)
               | Some (HArray elems) =>
                   js ← result_mapM (view fuel' (l :: stack) h) elems;
                   Ok (JArr js)
               end
      end
  end.

(** No chain of distinct objects is longer than the heap. *)
Definition JSON_view (h : heap) (v : value) : result json :=
  view (S (size h)) [] h v.

(** The own enumerable properties, as object spread [{...o}] copies them. *)
Definition own_props (o : object) : list (string * value) :=
  match o with
  | HObject props => props
  | HArray elems => imap (λ i v, (pretty i, v)) elems
  end.

Definition alloc (h : heap) (o : object) : loc * heap :=
  let l := fresh (dom h) in (l, <[l := o]> h).

End Heap.

(** * The plugin *)
Module Plugin.
Import Json Heap.

(** ** requestPipelineAPI.ts *)

Record HttpRequest := { url : string; method : string; req_headers : list (string * string) }.

(** [variables] is an object of the caller, held by reference. *)
Record GraphQLRequest := {
  query : option string;
  req_operationName : option string;
  variables : option loc;
  req_extensions : option (list (string * json));
  req_http : option HttpRequest;
}.

Record GraphQLFormattedError := { message : string; path : option (list string) }.

Record GraphQLResponse := {
  data : option (list (string * json));
  errors : option (list GraphQLFormattedError);
  extensions : option (list (string * json));
  http : option (list (string * string));
}.

Inductive OperationTypeNode := query_op | mutation_op | subscription_op.
Global Instance OperationTypeNode_eq_dec : EqDecision OperationTypeNode.
Proof. solve_decision. Defined.

Inductive CacheScope := Public | Private_scope.
Global Instance CacheScope_eq_dec : EqDecision CacheScope.
Proof. solve_decision. Defined.

(** Modelled from the spec: the cache policy, which this version of
    requestPipelineAPI.ts does not declare: [{ scope: enum{Public, Private},
    maxAge: integer seconds }], supplied by the computation. *)
Record CachePolicy := { scope : CacheScope; maxAge : Z }.

(** The fields of [GraphQLRequestContext] the plugin reads. [documentText]
    and [overallCachePolicy] are read by the plugin although this version of
    the interface does not list them; [documentText] has the type
    [BaseCacheKey] gives it. [operationName] is [None] for an anonymous
    operation ([null]); [operation] holds the operation type of the
    [OperationDefinitionNode], when there is one. *)
Record GraphQLRequestContext := {
  request : GraphQLRequest;
  response : option GraphQLResponse;
  documentText : string;
  operationName : option string;
  operation : option OperationTypeNode;
  overallCachePolicy : option CachePolicy;
}.

(** ** Hooks *)

(** [ValueOrPromise<T>]: a plain value, or a promise that settles. *)
Inductive ValueOrPromise (A : Type) :=
  | Value (a : A)
  | Promise (settles : result A).
Arguments Value {A} a.
Arguments Promise {A} settles.

Definition await {A} (x : ValueOrPromise A) : result A :=
  match x with
  | Value a => Ok a
  | Promise r => r
  end.

(** ToBoolean, as [!x] applies it: a promise is an object, hence truthy. *)
Definition truthy (x : ValueOrPromise bool) : bool :=
  match x with
  | Value b => b
  | Promise _ => true
  end.

(** A hook is called with the request context; the call itself may throw. *)
Definition hook (A : Type) : Type := GraphQLRequestContext → result (ValueOrPromise A).

Record Options := {
  opt_sessionId : option (hook (option string));
  opt_extraCacheKeyData : option (hook json);
  opt_shouldReadFromCache : option (hook bool);
  opt_shouldWriteToCache : option (hook bool);
}.

(** ** Cache keys *)

Inductive SessionMode := NoSession | Private | AuthenticatedPublic.
Global Instance SessionMode_eq_dec : EqDecision SessionMode.
Proof. solve_decision. Defined.

(** A TypeScript numeric enum: members count from zero. *)
Definition SessionMode_value (m : SessionMode) : Z :=
  match m with
  | NoSession => 0
  | Private => 1
  | AuthenticatedPublic => 2
  end.

Definition sha (s : string) : string := Sha256.sha256_hex s.

Record BaseCacheKey := {
  key_documentText : string;
  key_operationName : option string;
  key_variables : loc;
  key_extra : json;
}.

(** [sessionId?]: [None] is the property left out, as in the literals
    [{ sessionMode: ... }]; the one literal that has it lists it first:
    [{ sessionId, sessionMode: SessionMode.Private }]. *)
Record ContextualCacheKey := {
  sessionMode : SessionMode;
  ctx_sessionId : option string;
}.

(** [{ ...baseCacheKey!, ...contextualCacheKeyFields }]: spreading [null]
    adds no property. *)
Definition CacheKey : Type := option BaseCacheKey * ContextualCacheKey.

Definition base_fields_of (b : BaseCacheKey) (vars : json) : list (string * json) :=
  [("documentText", JStr (key_documentText b));
   ("operationName", from_option JStr JNull (key_operationName b));
   ("variables", vars);
   ("extra", key_extra b)].

Definition base_fields (h : heap) (b : BaseCacheKey) : result (list (string * json)) :=
  vars ← JSON_view h (VRef (key_variables b));
  Ok (base_fields_of b vars).

Definition contextual_fields (c : ContextualCacheKey) : list (string * json) :=
  from_option (λ s, [("sessionId", JStr s)]) [] (ctx_sessionId c)
  ++ [("sessionMode", JNum (SessionMode_value (sessionMode c)))].

(** [JSON.stringify(key)] reads the variables through the heap of the
    moment. *)
Definition stringify_key (h : heap) (key : CacheKey) : result string :=
  bs ← from_option (base_fields h) (Ok []) key.1;
  Ok (ser (JObj (bs ++ contextual_fields key.2))).

Definition cacheKeyString (h : heap) (key : CacheKey) : result string :=
  s ← stringify_key h key; Ok (sha s).

Definition isGraphQLQuery (requestContext : GraphQLRequestContext) : result bool :=
  match operation requestContext with
  | None => Throw (TypeError "Cannot read property 'operation' of undefined")
  | Some op => Ok (bool_decide (op = query_op))
  end.

(** ** Per-request state and the world around it *)

(** The two variables [requestDidStart] closes over. *)
Record Closure := {
  sessionId : option string;
  baseCacheKey : option BaseCacheKey;
}.

(** What the plugin does to its surroundings, in order. *)
Inductive event :=
  | StoreGet (key : string)
  | StoreSet (key value : string) (ttl : Z)
  | ConsoleWarn (msg : string).

Record World := {
  objects : heap;
  store : gmap string string;
  trace : list event;
}.

Definition M (A : Type) : Type := Closure * World → result A * (Closure * World).

Global Instance M_ret : MRet M := λ A a s, (Ok a, s).
Global Instance M_bind : MBind M := λ A B k m s,
  match m s with
  | (Ok a, s') => k a s'
  | (Throw e, s') => (Throw e, s')
  end.

Definition lift {A} (r : result A) : M A := λ s, (r, s).
Definition get_closure : M Closure := λ s, (Ok s.1, s).
Definition get_world : M World := λ s, (Ok s.2, s).
Definition put_closure (c : Closure) : M unit := λ s, (Ok (), (c, s.2)).
Definition put_world (w : World) : M unit := λ s, (Ok (), (s.1, w)).
Definition emit (e : event) : M unit :=
  w ← get_world;
  put_world {| objects := objects w; store := store w; trace := trace w ++ [e] |}.

(** Modelled from the spec: the store adapter, [get(key) -> value | absent]
    and [set(key, value, ttlSeconds)], reached through
    [PrefixingKeyValueCache], which namespaces every key under a fixed
    prefix. Expiry and failures of the store are its own business. *)
Definition cache_get (prefix key : string) : M (option string) :=
  w ← get_world;
  _ ← emit (StoreGet (prefix +:+ key));
  mret (store w !! (prefix +:+ key)).

Definition cache_set (prefix key value : string) (ttl : Z) : M unit :=
  w ← get_world;
  _ ← put_world {| objects := objects w;
                   store := <[prefix +:+ key := value]> (store w);
                   trace := trace w |};
  emit (StoreSet (prefix +:+ key) value ttl).

Definition fqc : string := "fqc:".

Definition initial_closure : Closure := {| sessionId := None; baseCacheKey := None |}.

Section Listener.
(** [JSON.parse], which the plugin applies to what the store returns. *)
Variable JSON_parse : string → result json.
Variable options : Options.

Definition cacheGet (contextualCacheKeyFields : ContextualCacheKey) : M (option json) :=
  c ← get_closure;
  w ← get_world;
  key ← lift (cacheKeyString (objects w) (baseCacheKey c, contextualCacheKeyFields));
  value ← cache_get fqc key;
  match value with
  | None => mret None
  | Some v => r ← lift (JSON_parse v); mret (Some r)
  end.

Definition cacheSetInBackground (contextualCacheKeyFields : ContextualCacheKey)
    (response : json) (ttlSeconds : Z) : M unit :=
  c ← get_closure;
  w ← get_world;
  key ← lift (cacheKeyString (objects w) (baseCacheKey c, contextualCacheKeyFields));
  let value := ser response in
  cache_set fqc key value ttlSeconds.

(** [options.hook && !options.hook(requestContext)]: the value the hook
    returns is negated as it is, without awaiting it. *)
Definition hook_says_no (h : option (hook bool)) (requestContext : GraphQLRequestContext)
    : result bool :=
  match h with
  | None => Ok false
  | Some f => x ← f requestContext; Ok (negb (truthy x))
  end.

(** [{ ...(requestContext.request.variables || {}) }] *)
Definition copy_variables (requestContext : GraphQLRequestContext) : M loc :=
  w ← get_world;
  props ← match variables (request requestContext) with
          | None => mret []
          | Some l => match objects w !! l with
                      | None => lift (Throw dangling)
                      | Some o => mret (own_props o)
                      end
          end;
  let (l', h') := alloc (objects w) (HObject props) in
  _ ← put_world {| objects := h'; store := store w; trace := trace w |};
  mret l'.

(** "Call hooks. Save values which will be used in XXX as well." Sets
    [sessionId] when the hook is there and yields [extraCacheKeyData]. *)
Definition call_hooks (requestContext : GraphQLRequestContext) : M json :=
  _ ← match opt_sessionId options with
      | Some f =>
          sid ← lift (f requestContext ≫= await);
          c ← get_closure;
          put_closure {| sessionId := sid; baseCacheKey := baseCacheKey c |}
      | None => mret ()
      end;
  match opt_extraCacheKeyData options with
  | Some f => lift (f requestContext ≫= await)
  | None => mret JNull
  end.

(** [baseCacheKey = { documentText, operationName, variables: {...}, extra }] *)
Definition set_baseCacheKey (requestContext : GraphQLRequestContext)
    (extraCacheKeyData : json) : M unit :=
  vars ← copy_variables requestContext;
  c ← get_closure;
  put_closure {| sessionId := sessionId c;
                 baseCacheKey := Some {| key_documentText := documentText requestContext;
                                         key_operationName := operationName requestContext;
                                         key_variables := vars;
                                         key_extra := extraCacheKeyData |} |}.

(** The reads of the executor: [if (sessionId === null) ... else ...]. *)
Definition lookup : M (option json) :=
  c ← get_closure;
  match sessionId c with
  | None => cacheGet {| sessionMode := NoSession; ctx_sessionId := None |}
  | Some sid =>
      privateResponse ← cacheGet {| sessionMode := Private; ctx_sessionId := Some sid |};
      match privateResponse with
      | Some r => mret (Some r)
      | None => cacheGet {| sessionMode := AuthenticatedPublic; ctx_sessionId := None |}
      end
  end.

(** Everything the executor does before it decides whether to read. *)
Definition populate (requestContext : GraphQLRequestContext) : M unit :=
  extraCacheKeyData ← call_hooks requestContext;
  set_baseCacheKey requestContext extraCacheKeyData.

Definition executor (requestContext : GraphQLRequestContext) : M (option json) :=
  q ← lift (isGraphQLQuery requestContext);
  if negb q then mret None else
  _ ← populate requestContext;
  skip ← lift (hook_says_no (opt_shouldReadFromCache options) requestContext);
  if skip : bool then mret None else
  lookup.

Definition invariant_error : exn :=
  Error "willSendResponse called without error, but execute not called?".

Definition no_sessionId_hook_warning : string :=
  "A GraphQL response used @cacheControl or setCacheHint to set cache hints with scope " +:+
  "Private, but you didn't define the sessionId hook for " +:+
  "apollo-server-plugin-response-cache. Not caching.".

Definition willSendResponse (requestContext : GraphQLRequestContext) : M unit :=
  q ← lift (isGraphQLQuery requestContext);
  if negb q then mret () else
  skip ← lift (hook_says_no (opt_shouldWriteToCache options) requestContext);
  if skip : bool then mret () else
  match response requestContext with
  | None => lift (Throw (TypeError "Cannot read property 'errors' of undefined"))
  | Some response =>
      (* response.errors || !response.data || !overallCachePolicy ||
         overallCachePolicy.maxAge <= 0: an array and an object are truthy,
         empty or not *)
      match errors response, data response, overallCachePolicy requestContext with
      | None, Some d, Some policy =>
          if decide (maxAge policy ≤ 0)%Z then mret () else
          let executionResult := JObj [("data", JObj d)] in
          c ← get_closure;
          match baseCacheKey c with
          | None => lift (Throw invariant_error)
          | Some _ =>
              if decide (scope policy = Private_scope) then
                match opt_sessionId options with
                | None => emit (ConsoleWarn no_sessionId_hook_warning)
                | Some _ =>
                    match sessionId c with
                    | None => mret ()
                    | Some sid =>
                        cacheSetInBackground
                          {| sessionMode := Private; ctx_sessionId := Some sid |}
                          executionResult (maxAge policy)
                    end
                end
              else
                cacheSetInBackground
                  {| sessionMode := match sessionId c with
                                    | None => NoSession
                                    | Some _ => AuthenticatedPublic
                                    end;
                     ctx_sessionId := None |}
                  executionResult (maxAge policy)
          end
      | _, _, _ => mret ()
      end
  end.

End Listener.

End Plugin.

(** * Vocabulary of the proofs *)

Import Json Heap Plugin.

(** ** Texts as lists of characters *)
Fixpoint chars (s : string) : list ascii :=
  match s with
  | EmptyString => []
  | String c s' => c :: chars s'
  end.

(** Reading a quoted string body back: the inverse of [escape]. *)
Definition unescape_simple (x : ascii) : ascii :=
  match x with
  | "b" => "008" | "t" => "009" | "n" => "010" | "f" => "012" | "r" => "013"
  | _ => x
  end%char.

Definition hexval (c : ascii) : N :=
  match c with
  | "0" => 0 | "1" => 1 | "2" => 2 | "3" => 3 | "4" => 4 | "5" => 5 | "6" => 6 | "7" => 7
  | "8" => 8 | "9" => 9 | "a" => 10 | "b" => 11 | "c" => 12 | "d" => 13 | "e" => 14 | _ => 15
  end%char%N.

Fixpoint unescape (e : list ascii) : list ascii :=
  match e with
  | [] => []
  | c :: e' =>
      if decide (c = BACKSLASH) then
        match e' with
        | [] => []
        | x :: e'' =>
            if decide (x = "u"%char) then
              match e'' with
              | _ :: _ :: hi :: lo :: e3 => ascii_of_N (16 * hexval hi + hexval lo) :: unescape e3
              | _ => []
              end
            else unescape_simple x :: unescape e''
        end
      else c :: unescape e'
  end.

Fixpoint string_of (l : list ascii) : string :=
  match l with
  | [] => EmptyString
  | c :: l' => String c (string_of l')
  end.

(** On a text read backwards from just before a closing quote: the body of
    the quoted string, up to the quote that opens it, which is the first
    quote that no backslash precedes. *)
Fixpoint body_rev (r : list ascii) : list ascii :=
  match r with
  | [] => []
  | c :: r' =>
      if decide (c = DQUOTE) then
        match r' with
        | c' :: _ => if decide (c' = BACKSLASH) then c :: body_rev r' else []
        | [] => []
        end
      else c :: body_rev r'
  end.

(** The contextual fields, read back from the end of a serialized key:
    the digit of [sessionMode] before the closing brace, and for
    [Private] the [sessionId] string before [,'sessionMode':1], which is
    fifteen characters further on. *)
Definition session_context_of (text : string) : option ContextualCacheKey :=
  match rev (chars text) with
  | close :: m :: r =>
      if decide (m = "0"%char) then
        Some {| sessionMode := NoSession; ctx_sessionId := None |}
      else if decide (m = "2"%char) then
        Some {| sessionMode := AuthenticatedPublic; ctx_sessionId := None |}
      else
        match drop 15 r with
        | _ :: body =>
            Some {| sessionMode := Private;
                    ctx_sessionId := Some (string_of (unescape (rev (body_rev body)))) |}
        | [] => None
        end
  | _ => None
  end.

(** The [key:value] members of an object, as [ser] prints them. *)
Definition members (ps : list (string * json)) : list string :=
  omap (λ kv, match kv.2 with
              | JUndefined => None
              | v => Some (quote kv.1 +:+ ":" +:+ ser v)
              end) ps.

(** The contexts the plugin builds: [sessionId] is there exactly for
    [Private]. *)
Definition plugin_context (ctx : ContextualCacheKey) : Prop :=
  sessionMode ctx = Private ↔ is_Some (ctx_sessionId ctx).

(** ** Vocabulary of the statements *)
Definition hex_char (c : ascii) : Prop := c ∈ chars "0123456789abcdef".

Definition logged (w : World) (evs : list event) : World :=
  {| objects := objects w; store := store w; trace := trace w ++ evs |}.

Definition with_store (w : World) (st : gmap string string) : World :=
  {| objects := objects w; store := st; trace := trace w |}.

(** What a lookup answers: nothing, or the parsed value. *)
Definition read (JSON_parse : string → result json) (st : gmap string string)
    (key : string) : result (option json) :=
  match st !! key with
  | None => Ok None
  | Some v => r ← JSON_parse v; Ok (Some r)
  end.

(** The world after one [cache.set]. *)
Definition written (w : World) (key value : string) (ttl : Z) : World :=
  {| objects := objects w;
     store := <[key := value]> (store w);
     trace := trace w ++ [StoreSet key value ttl] |}.

(** The store key of a cache key whose base fields serialize to
    [fields]. *)
Definition key_of (fields : list (string * json)) (ctx : ContextualCacheKey) : string :=
  fqc +:+ sha (ser (JObj (fields ++ contextual_fields ctx))).

Definition no_session : ContextualCacheKey :=
  {| sessionMode := NoSession; ctx_sessionId := None |}.
Definition private_session (sid : string) : ContextualCacheKey :=
  {| sessionMode := Private; ctx_sessionId := Some sid |}.
Definition authenticated_public : ContextualCacheKey :=
  {| sessionMode := AuthenticatedPublic; ctx_sessionId := None |}.

Definition reframe (w : World) (st : gmap string string) (tr : list event) : World :=
  {| objects := objects w; store := st; trace := tr |}.

(** What the hooks and the request give the executor: the session id
    (kept as it was without the hook), the extra data, the properties to
    copy. *)
Definition resolved_sessionId (options : Options) (rc : GraphQLRequestContext)
    (c : Closure) : result (option string) :=
  match opt_sessionId options with
  | Some f => f rc ≫= await
  | None => Ok (sessionId c)
  end.

Definition resolved_extra (options : Options) (rc : GraphQLRequestContext) : result json :=
  match opt_extraCacheKeyData options with
  | Some f => f rc ≫= await
  | None => Ok JNull
  end.

Definition variables_props (rc : GraphQLRequestContext) (h : heap)
    : result (list (string * value)) :=
  match variables (request rc) with
  | None => Ok []
  | Some l => match h !! l with
              | None => Throw dangling
              | Some o => Ok (own_props o)
              end
  end.

(** The closure and the world once the executor has set its state. *)
Definition populated (rc : GraphQLRequestContext) (sid : option string) (extra : json)
    (h : heap) : Closure :=
  {| sessionId := sid;
     baseCacheKey := Some {| key_documentText := documentText rc;
                             key_operationName := operationName rc;
                             key_variables := fresh (dom h);
                             key_extra := extra |} |}.

Definition with_copy (w : World) (props : list (string * value)) : World :=
  {| objects := <[fresh (dom (objects w)) := HObject props]> (objects w);
     store := store w; trace := trace w |}.

(** The response passes the gate of [willSendResponse]. *)
Definition cacheable (rc : GraphQLRequestContext) (d : list (string * json))
    (policy : CachePolicy) : Prop :=
  ∃ resp, response rc = Some resp ∧ errors resp = None ∧ data resp = Some d ∧
          overallCachePolicy rc = Some policy ∧ (0 < maxAge policy)%Z.

Definition payload (d : list (string * json)) : string := ser (JObj [("data", JObj d)]).

(** The contexts [lookup] reads under, in order. *)
Definition lookup_contexts (sid : option string) : list ContextualCacheKey :=
  match sid with
  | None => [no_session]
  | Some s => [private_session s; authenticated_public]
  end.

(** The digest does not confuse these two texts. *)
Definition collision_free (x y : string) : Prop := sha x = sha y → x = y.


(** Some [cache.set] happened between two worlds. *)
Definition wrote (w w' : World) : Prop :=
  ∃ evs key value ttl, trace w' = trace w ++ evs ∧ StoreSet key value ttl ∈ evs.

(** ** A request, for the examples

    A stand-in for [JSON.parse] that keeps the text. *)
Definition keep_text (s : string) : result json := Ok (JStr s).

Definition no_hooks : Options :=
  {| opt_sessionId := None; opt_extraCacheKeyData := None;
     opt_shouldReadFromCache := None; opt_shouldWriteToCache := None |}.

Definition session_hook (sid : option string) : Options :=
  {| opt_sessionId := Some (λ _, Ok (Promise (Ok sid)));
     opt_extraCacheKeyData := None;
     opt_shouldReadFromCache := None; opt_shouldWriteToCache := None |}.

Definition user_query : string := "query Q($id: Int) { user(id: $id) { name } }".

Definition user_request : GraphQLRequest :=
  {| query := Some user_query; req_operationName := Some "Q";
     variables := Some 1%positive; req_extensions := None; req_http := None |}.

Definition user_data : list (string * json) := [("user", JObj [("name", JStr "Ada")])].

Definition answered (d : list (string * json)) (policy : CachePolicy)
    : GraphQLRequestContext :=
  {| request := user_request;
     response := Some {| data := Some d; errors := None; extensions := None;
                         http := None |};
     documentText := user_query; operationName := Some "Q";
     operation := Some query_op;
     overallCachePolicy := Some policy |}.

Definition public_60 : CachePolicy := {| scope := Public; maxAge := 60 |}.
Definition private_60 : CachePolicy := {| scope := Private_scope; maxAge := 60 |}.

Definition world0 : World :=
  {| objects := {[ 1%positive := HObject [("id", VNum 7)] ]}; store := ∅; trace := [] |}.

Definition user_base : BaseCacheKey :=
  {| key_documentText := user_query; key_operationName := Some "Q";
     key_variables := 2%positive; key_extra := JNull |}.

Definition user_fields : list (string * json) :=
  base_fields_of user_base (JObj [("id", JNum 7)]).

Definition after_read (options : Options) : Closure * World :=
  (executor keep_text options (answered user_data public_60) (initial_closure, world0)).2.

Definition bob_closure : Closure :=
  populated (answered user_data public_60) (Some "bob") JNull (objects world0).
Definition copied_world : World := with_copy world0 [("id", VNum 7)].

Definition alice_text : string :=
  ser (JObj (user_fields ++ contextual_fields (private_session "alice"))).

Definition after_write (options : Options) (d : list (string * json))
    (policy : CachePolicy) : result unit * (Closure * World) :=
  willSendResponse options (answered d policy) (after_read options).

Definition never_read : Options :=
  {| opt_sessionId := Some (λ _, Ok (Promise (Ok (Some "bob"))));
     opt_extraCacheKeyData := None;
     opt_shouldReadFromCache := Some (λ _, Ok (Value false));
     opt_shouldWriteToCache := None |}.

Definition two_copies : heap :=
  {[ 1%positive := HObject [("id", VNum 7)]; 5%positive := HObject [("id", VNum 7)] ]}.
Definition user_base_at (l : loc) : BaseCacheKey :=
  {| key_documentText := user_query; key_operationName := Some "Q";
     key_variables := l; key_extra := JNull |}.

(** Both predicates answer [false], through a promise. *)
Definition async_no : Options :=
  {| opt_sessionId := None; opt_extraCacheKeyData := None;
     opt_shouldReadFromCache := Some (λ _, Ok (Promise (Ok false)));
     opt_shouldWriteToCache := Some (λ _, Ok (Promise (Ok false))) |}.

(** A store that holds the answer, written by an earlier request. *)
Definition cached_world : World :=
  {| objects := objects world0;
     store := store (after_write no_hooks user_data public_60).2.2;
     trace := [] |}.


(** A store key of the plugin: the prefix, then a digest. *)
Definition namespaced (key : string) : Prop :=
  ∃ k, key = fqc +:+ k ∧ String.length k = 64.

Definition is_read (e : event) : Prop := ∃ key, e = StoreGet key ∧ namespaced key.

(** The context [willSendResponse] writes under, when it writes. *)
Definition write_context (options : Options) (c : Closure) (policy : CachePolicy)
    : option ContextualCacheKey :=
  match scope policy, opt_sessionId options, sessionId c with
  | Private_scope, Some _, Some sid => Some (private_session sid)
  | Private_scope, _, _ => None
  | Public, _, None => Some no_session
  | Public, _, Some _ => Some authenticated_public
  end.


(** The body of a quoted string, read forwards up to its closing quote. *)
Fixpoint body_fwd (e : list ascii) : list ascii :=
  match e with
  | [] => []
  | c :: e' =>
      if decide (c = DQUOTE) then []
      else if decide (c = BACKSLASH) then
        match e' with
        | x :: e'' => c :: x :: body_fwd e''
        | [] => [c]
        end
      else c :: body_fwd e'
  end.

(** The document text, read back from the start of a serialized key, past
    the seventeen characters of [{'documentText':'] *)
Definition document_of (text : string) : string :=
  string_of (unescape (body_fwd (drop 17 (chars text)))).

Definition mutation_context : GraphQLRequestContext :=
  {| request := user_request;
     response := Some {| data := Some user_data; errors := None; extensions := None;
                         http := None |};
     documentText := "mutation M { rename }"; operationName := Some "M";
     operation := Some mutation_op;
     overallCachePolicy := Some public_60 |}.

Definition unparsed_context : GraphQLRequestContext :=
  {| request := user_request;
     response := Some {| data := None; errors := Some [{| message := "Syntax Error";
                                                          path := None |}];
                         extensions := None; http := None |};
     documentText := "{"; operationName := None;
     operation := None;
     overallCachePolicy := None |}.

Definition rejecting_session : Options :=
  {| opt_sessionId := Some (λ _, Ok (Promise (Throw (Error "bad cookie"))));
     opt_extraCacheKeyData := None;
     opt_shouldReadFromCache := None; opt_shouldWriteToCache := None |}.

Definition never_write : Options :=
  {| opt_sessionId := None; opt_extraCacheKeyData := None;
     opt_shouldReadFromCache := None;
     opt_shouldWriteToCache := Some (λ _, Ok (Value false)) |}.

Definition read_result (options : Options) : result (option json) :=
  (executor keep_text options (answered user_data public_60) (initial_closure, world0)).1.

Definition bob_text : string :=
  ser (JObj (user_fields ++ contextual_fields (private_session "bob"))).

Definition second_populate : result unit * (Closure * World) :=
  populate no_hooks (answered user_data public_60)
    (initial_closure, (after_write no_hooks user_data public_60).2.2).

Definition other_base : BaseCacheKey :=
  {| key_documentText := "query Q { me }"; key_operationName := Some "Q";
     key_variables := 2%positive; key_extra := JNull |}.

(** Variables with a nested object: [{ filter: { a: 1 } }]. *)
Definition nested_world : World :=
  {| objects := {[ 1%positive := HObject [("filter", VRef 3%positive)];
                   3%positive := HObject [("a", VNum 1)] ]};
     store := ∅; trace := [] |}.

Definition after_nested_read : Closure * World :=
  (executor keep_text no_hooks (answered user_data public_60)
     (initial_closure, nested_world)).2.

(** * Properties *)

(** ** The digest and the serializer on known inputs *)

Example sha256_empty :
  Sha256.sha256_hex EmptyString = "e3b0c44298fc1c149afbf4c8996fb92427ae41e4649b934ca495991b7852b855".
Proof. vm_compute. reflexivity. Qed.

Example sha256_abc :
  Sha256.sha256_hex "abc" = "ba7816bf8f01cfea414140de5dae2223b00361a396177a9cb410ff61f20015ad".
Proof. vm_compute. reflexivity. Qed.

Example sha256_two_blocks :
  Sha256.sha256_hex "abcdbcdecdefdefgefghfghighijhijkijkljklmklmnlmnomnopnopq"
  = "248d6a61d20638b8e5c026930c3e6039a33ce45964ff2167f6ecedd419db06c1".
Proof. vm_compute. reflexivity. Qed.

(** Around the block boundary of the padding: 55, 56 and 64 octets. *)
Example sha256_a55 :
  Sha256.sha256_hex "aaaaaaaaaaaaaaaaaaaaaaaaaaaaaaaaaaaaaaaaaaaaaaaaaaaaaaa"
  = "9f4390f8d30c2dd92ec9f095b65e2b9ae9b0a925a5258e241c9f1e910f734318".
Proof. vm_compute. reflexivity. Qed.

Example sha256_a56 :
  Sha256.sha256_hex "aaaaaaaaaaaaaaaaaaaaaaaaaaaaaaaaaaaaaaaaaaaaaaaaaaaaaaaa"
  = "b35439a4ac6f0948b6d6f9e3c6af0f5f590ce20f1bde7090ef7970686ec6738a".
Proof. vm_compute. reflexivity. Qed.

Example sha256_a64 :
  Sha256.sha256_hex "aaaaaaaaaaaaaaaaaaaaaaaaaaaaaaaaaaaaaaaaaaaaaaaaaaaaaaaaaaaaaaaa"
  = "ffe054fe7ae0cb6dc65c3af9b61d5209f439851db43d0ba5997337df154668eb".
Proof. vm_compute. reflexivity. Qed.

Example stringify_object :
  JSON_stringify (JObj [("a", JNum 1); ("b", JUndefined);
                        ("c", JArr [JUndefined; JStr "x"; JBool true; JNum (-20)]);
                        ("d", JObj []); ("e", JNull)])
  = Some (sq "{'a':1,'c':[null,'x',true,-20],'d':{},'e':null}").
Proof. vm_compute. reflexivity. Qed.

Example stringify_escapes :
  ser (JStr (String "010" (String DQUOTE (String BACKSLASH (String "001" "/z")))))
  = String DQUOTE (String BACKSLASH (String "n" (String BACKSLASH (String DQUOTE
     (String BACKSLASH (String BACKSLASH (String BACKSLASH ("u0001/z" +:+ String DQUOTE EmptyString)))))))).
Proof. vm_compute. reflexivity. Qed.

Lemma chars_app s t : chars (s +:+ t) = chars s ++ chars t.
Proof. induction s; simpl; [done|]. by f_equal. Qed.

Lemma string_of_chars s : string_of (chars s) = s.
Proof. induction s; simpl; [done|]. by f_equal. Qed.

Lemma unescape_escape_char c r :
  unescape (chars (escape_char c) ++ r) = c :: unescape r.
Proof. destruct c as [[] [] [] [] [] [] [] []]; reflexivity. Qed.

Lemma unescape_escape s : unescape (chars (escape s)) = chars s.
Proof.
  induction s as [|c s IH]; simpl; [done|].
  rewrite chars_app, unescape_escape_char. by f_equal.
Qed.

Lemma ser_object ps : ser (JObj ps) = "{" +:+ join "," (members ps) +:+ "}".
Proof.
  simpl. do 2 f_equal. f_equal.
  induction ps as [|[k v] ps IH]; [done|].
  destruct v; simpl; rewrite IH; done.
Qed.

Lemma members_app ps qs : members (ps ++ qs) = members ps ++ members qs.
Proof. apply omap_app. Qed.

Lemma join_cons sep x l : l ≠ [] → join sep (x :: l) = x +:+ sep +:+ join sep l.
Proof. by destruct l. Qed.

Lemma chars_join_app sep l1 l2 :
  l2 ≠ [] →
  ∃ pre, chars (join sep (l1 ++ l2)) = pre ++ chars (join sep l2).
Proof.
  intros Hl2. induction l1 as [|x l1 [pre IH]].
  - by exists [].
  - rewrite <- app_comm_cons, join_cons, !chars_app, IH.
    + eexists (chars x ++ chars sep ++ pre). by rewrite <- !app_assoc.
    + intros [_ ?]%app_eq_nil. done.
Qed.

Lemma body_rev_escape_char c r :
  body_rev (rev (chars (escape_char c)) ++ r) = rev (chars (escape_char c)) ++ body_rev r.
Proof. destruct c as [[] [] [] [] [] [] [] []]; reflexivity. Qed.

Lemma body_rev_escape s r :
  body_rev (rev (chars (escape s)) ++ r) = rev (chars (escape s)) ++ body_rev r.
Proof.
  revert r. induction s as [|c s IH]; intros r; simpl; [done|].
  rewrite chars_app, rev_app_distr, <- !app_assoc, IH.
  by rewrite body_rev_escape_char.
Qed.

Lemma session_context_of_object ps ctx :
  plugin_context ctx →
  session_context_of (ser (JObj (ps ++ contextual_fields ctx))) = Some ctx.
Proof.
  intros Hctx. rewrite ser_object, members_app.
  destruct (chars_join_app "," (members ps) (members (contextual_fields ctx)))
    as [pre Hpre].
  { destruct ctx as [m [sid|]]; discriminate. }
  unfold session_context_of. rewrite !chars_app, Hpre. clear Hpre.
  destruct ctx as [m [sid|]]; unfold plugin_context in Hctx; simpl in Hctx.
  - assert (m = Private) as -> by (apply Hctx; eauto).
    cbn [contextual_fields from_option ctx_sessionId sessionMode app members omap
         list_omap snd fst ser SessionMode_value join].
    unfold quote at 2. simpl chars.
    rewrite !chars_app. simpl chars.
    rewrite !rev_app_distr. simpl rev. rewrite !rev_app_distr. cbn.
    rewrite <- !app_assoc. simpl.
    rewrite body_rev_escape. simpl.
    rewrite app_nil_r, rev_involutive, unescape_escape, string_of_chars. done.
  - destruct m; simpl.
    + rewrite !rev_app_distr. simpl. done.
    + exfalso. destruct Hctx as [Hc _]. by destruct Hc.
    + rewrite !rev_app_distr. simpl. done.
Qed.

Lemma sha_length s : String.length (sha s) = 64.
Proof. unfold sha, Sha256.sha256_hex, Sha256.hex_digest, Sha256.hex32. reflexivity. Qed.

Lemma hexdigit_hex n : hex_char (hexdigit n).
Proof.
  unfold hexdigit, hex_char. repeat case_match. all: simpl. all: set_solver.
Qed.
Lemma hex32_hex x rest :
  Forall hex_char (chars rest) → Forall hex_char (chars (Sha256.hex32 x rest)).
Proof.
  intros H. unfold Sha256.hex32, Sha256.nibble. cbn [chars].
  repeat (constructor; [apply hexdigit_hex|]). done.
Qed.

Lemma sha_hex s : Forall hex_char (chars (sha s)).
Proof.
  unfold sha, Sha256.sha256_hex, Sha256.hex_digest.
  repeat apply hex32_hex. constructor.
Qed.


Lemma result_mapM_throw {A B} (f : A → result B) l e :
  result_mapM f l = Throw e → ∃ a, a ∈ l ∧ f a = Throw e.
Proof.
  induction l as [|a l IH]; simpl; [done|].
  destruct (f a) as [b|e'] eqn:Hfa; simpl.
  - destruct (result_mapM f l) as [bs|e'] eqn:Hl; simpl; [done|].
    intros [= <-]. destruct IH as (a' & ? & ?); [done|].
    exists a'. split; [by right|done].
  - intros [= <-]. exists a. split; [by left|done].
Qed.

Lemma stack_bound (stk : list loc) (h : heap) :
  NoDup stk → (∀ l, l ∈ stk → is_Some (h !! l)) → length stk ≤ size h.
Proof.
  intros Hnd Hin. rewrite <- (size_list_to_set (C := gset loc) stk) by done.
  rewrite <- (size_dom (D := gset loc) h). apply subseteq_size.
  intros l Hl. apply elem_of_dom, Hin. by apply elem_of_list_to_set in Hl.
Qed.

Lemma view_fuel n : ∀ stk (h : heap) v,
  NoDup stk → (∀ l, l ∈ stk → is_Some (h !! l)) → size h < n + length stk →
  view n stk h v ≠ Throw OutOfFuel.
Proof.
  induction n as [|n IH]; intros stk h v Hnd Hin Hn.
  - pose proof (stack_bound stk h Hnd Hin). simpl in Hn. lia.
  - destruct v as [| | | | |l]; simpl; try done.
    destruct (decide (l ∈ stk)) as [|Hl]; [done|].
    destruct (h !! l) as [o|] eqn:Hhl; [|done].
    assert (∀ v, view n (l :: stk) h v ≠ Throw OutOfFuel) as Hsub.
    { intros v'. apply IH.
      - by constructor.
      - intros l' [->|?]%elem_of_cons; eauto.
      - simpl. lia. }
    destruct o as [props|elems].
    + destruct (result_mapM _ props) as [ps|e] eqn:Hps; simpl; [done|].
      intros [= ->]. apply result_mapM_throw in Hps as ([k v'] & _ & Hv'). simpl in Hv'.
      destruct (view n (l :: stk) h v') as [j|e] eqn:Hj; simpl in Hv'; [done|].
      injection Hv' as ->. by apply (Hsub v').
    + destruct (result_mapM _ elems) as [js|e] eqn:Hjs; simpl; [done|].
      intros [= ->]. apply result_mapM_throw in Hjs as (v' & _ & Hv').
      by apply (Hsub v').
Qed.

Lemma JSON_view_fuel (h : heap) v : JSON_view h v ≠ Throw OutOfFuel.
Proof.
  apply view_fuel.
  - constructor.
  - intros l Hl. by apply elem_of_nil in Hl.
  - simpl. lia.
Qed.

Ltac munfold :=
  unfold mbind, mret, M_bind, M_ret, lift, get_closure, get_world, put_closure,
         put_world in *.

Lemma logged_nil w : logged w [] = w.
Proof. destruct w. unfold logged. simpl. by rewrite app_nil_r. Qed.

Lemma logged_logged w e1 e2 : logged (logged w e1) e2 = logged w (e1 ++ e2).
Proof. unfold logged. simpl. by rewrite app_assoc. Qed.

Lemma cacheGet_run parse ctx c w :
  cacheGet parse ctx (c, w) =
  match cacheKeyString (objects w) (baseCacheKey c, ctx) with
  | Throw e => (Throw e, (c, w))
  | Ok k => (read parse (store w) (fqc +:+ k), (c, logged w [StoreGet (fqc +:+ k)]))
  end.
Proof.
  unfold cacheGet, cache_get, emit, read. munfold. simpl.
  destruct (cacheKeyString _ _) as [k|e]; [|done]. simpl.
  destruct (store w !! _) as [v|]; [|done].
  by destruct (parse v).
Qed.

Lemma cacheSetInBackground_run ctx response ttl c w :
  cacheSetInBackground ctx response ttl (c, w) =
  match cacheKeyString (objects w) (baseCacheKey c, ctx) with
  | Throw e => (Throw e, (c, w))
  | Ok k => (Ok (), (c, written w (fqc +:+ k) (ser response) ttl))
  end.
Proof.
  unfold cacheSetInBackground, cache_set, emit. munfold. simpl.
  by destruct (cacheKeyString _ _) as [k|e].
Qed.

Lemma cacheKeyString_fields h b ctx fields :
  base_fields h b = Ok fields →
  cacheKeyString h (Some b, ctx) = Ok (sha (ser (JObj (fields ++ contextual_fields ctx)))).
Proof. intros H. unfold cacheKeyString, stringify_key. simpl. by rewrite H. Qed.

Lemma lookup_run parse c w base fields :
  baseCacheKey c = Some base →
  base_fields (objects w) base = Ok fields →
  lookup parse (c, w) =
  match sessionId c with
  | None =>
      (read parse (store w) (key_of fields no_session),
       (c, logged w [StoreGet (key_of fields no_session)]))
  | Some sid =>
      match store w !! key_of fields (private_session sid) with
      | Some v =>
          (r ← parse v; Ok (Some r),
           (c, logged w [StoreGet (key_of fields (private_session sid))]))
      | None =>
          (read parse (store w) (key_of fields authenticated_public),
           (c, logged w [StoreGet (key_of fields (private_session sid));
                         StoreGet (key_of fields authenticated_public)]))
      end
  end.
Proof.
  intros Hb Hf. unfold lookup. unfold mbind at 1, M_bind at 1, get_closure. simpl.
  destruct (sessionId c) as [sid|].
  - unfold mbind, M_bind. rewrite cacheGet_run, Hb.
    rewrite (cacheKeyString_fields _ _ _ _ Hf). fold (key_of fields (private_session sid)).
    unfold read at 1. destruct (store w !! _) as [v|] eqn:Hv.
    + simpl. destruct (parse v); done.
    + simpl. rewrite cacheGet_run. simpl. rewrite Hb.
      rewrite (cacheKeyString_fields _ _ _ _ Hf). by rewrite logged_logged.
  - rewrite cacheGet_run, Hb. by rewrite (cacheKeyString_fields _ _ _ _ Hf).
Qed.

Lemma populate_cases options rc c w :
  populate options rc (c, w) =
  match resolved_sessionId options rc c with
  | Throw e => (Throw e, (c, w))
  | Ok sid =>
      let c' := {| sessionId := sid; baseCacheKey := baseCacheKey c |} in
      match resolved_extra options rc with
      | Throw e => (Throw e, (c', w))
      | Ok extra =>
          match variables_props rc (objects w) with
          | Throw e => (Throw e, (c', w))
          | Ok props => (Ok (), (populated rc sid extra (objects w), with_copy w props))
          end
      end
  end.
Proof.
  unfold resolved_sessionId, resolved_extra, variables_props, populated, with_copy.
  unfold populate, call_hooks, set_baseCacheKey, copy_variables, alloc.
  munfold.
  destruct c as [sid0 base0], w as [h st tr]. simpl.
  destruct (opt_sessionId options) as [f|]; simpl;
    [destruct (result_bind _ _ await (f rc)); simpl; [|done]|];
    (destruct (opt_extraCacheKeyData options) as [g|]; simpl;
      [destruct (result_bind _ _ await (g rc)); simpl; [|done]|]);
    (destruct (variables (request rc)) as [l|]; simpl; [|done]);
    destruct (h !! l); done.
Qed.

Lemma populate_run options rc c w sid extra props :
  resolved_sessionId options rc c = Ok sid →
  resolved_extra options rc = Ok extra →
  variables_props rc (objects w) = Ok props →
  populate options rc (c, w) =
  (Ok (), (populated rc sid extra (objects w), with_copy w props)).
Proof. intros H1 H2 H3. by rewrite populate_cases, H1, H2, H3. Qed.


Lemma populate_keeps options rc c w r c1 w1 :
  populate options rc (c, w) = (r, (c1, w1)) →
  store w1 = store w ∧ trace w1 = trace w.
Proof.
  rewrite populate_cases.
  destruct (resolved_sessionId options rc c) as [sid|]; [|by intros [= <- <- <-]].
  destruct (resolved_extra options rc) as [extra|]; [|by intros [= <- <- <-]].
  destruct (variables_props rc (objects w)) as [props|]; by intros [= <- <- <-].
Qed.

Lemma populate_frame options rc c w st tr :
  populate options rc (c, reframe w st tr) =
  (let '(r, (c1, w1)) := populate options rc (c, w) in (r, (c1, reframe w1 st tr))).
Proof.
  rewrite !populate_cases. simpl.
  destruct (resolved_sessionId options rc c) as [sid|]; [|done].
  destruct (resolved_extra options rc) as [extra|]; [|done].
  destruct (variables_props rc (objects w)) as [props|]; done.
Qed.

Lemma executor_cases parse options rc c w :
  executor parse options rc (c, w) =
  match isGraphQLQuery rc with
  | Throw e => (Throw e, (c, w))
  | Ok false => (Ok None, (c, w))
  | Ok true =>
      match populate options rc (c, w) with
      | (Throw e, s) => (Throw e, s)
      | (Ok _, s) =>
          match hook_says_no (opt_shouldReadFromCache options) rc with
          | Throw e => (Throw e, s)
          | Ok true => (Ok None, s)
          | Ok false => lookup parse s
          end
      end
  end.
Proof.
  unfold executor. unfold mbind at 1, M_bind at 1, lift at 1.
  destruct (isGraphQLQuery rc) as [[]|]; simpl; [|done..].
  unfold mbind at 1, M_bind at 1.
  destruct (populate options rc (c, w)) as [[[]|] s]; [|done].
  unfold mbind at 1, M_bind at 1, lift at 1.
  by destruct (hook_says_no _ rc) as [[]|].
Qed.

(** What [willSendResponse] does with a response that passed the gate. *)
Lemma willSendResponse_cacheable options rc c w d policy :
  isGraphQLQuery rc = Ok true →
  hook_says_no (opt_shouldWriteToCache options) rc = Ok false →
  cacheable rc d policy →
  willSendResponse options rc (c, w) =
  match baseCacheKey c with
  | None => (Throw invariant_error, (c, w))
  | Some _ =>
      match scope policy, opt_sessionId options, sessionId c with
      | Private_scope, None, _ =>
          (Ok (), (c, logged w [ConsoleWarn no_sessionId_hook_warning]))
      | Private_scope, Some _, None => (Ok (), (c, w))
      | Private_scope, Some _, Some sid =>
          cacheSetInBackground (private_session sid) (JObj [("data", JObj d)])
            (maxAge policy) (c, w)
      | Public, _, None =>
          cacheSetInBackground no_session (JObj [("data", JObj d)]) (maxAge policy) (c, w)
      | Public, _, Some _ =>
          cacheSetInBackground authenticated_public (JObj [("data", JObj d)])
            (maxAge policy) (c, w)
      end
  end.
Proof.
  intros Hq Hw (resp & Hresp & Herr & Hdata & Hpol & Hage).
  unfold willSendResponse.
  unfold mbind at 1, M_bind at 1, lift at 1. rewrite Hq. simpl.
  unfold mbind at 1, M_bind at 1, lift at 1. rewrite Hw. simpl.
  rewrite Hresp, Herr, Hdata, Hpol. rewrite decide_False by lia.
  unfold mbind at 1, M_bind at 1, get_closure. simpl.
  destruct (baseCacheKey c); [|done].
  destruct (scope policy); simpl.
  - by destruct (sessionId c).
  - destruct (opt_sessionId options); [by destruct (sessionId c)|].
    unfold emit, logged. munfold. simpl. by destruct (sessionId c).
Qed.

(** What it does otherwise: nothing, or it throws for want of an operation
    or a response. *)
Lemma willSendResponse_not_cacheable options rc c w :
  (∀ d policy, ¬ cacheable rc d policy) →
  ∃ r, willSendResponse options rc (c, w) = (r, (c, w)).
Proof.
  intros Hnc. unfold willSendResponse.
  unfold mbind at 1, M_bind at 1, lift at 1.
  destruct (isGraphQLQuery rc) as [[]|]; simpl; [|by eauto..].
  unfold mbind at 1, M_bind at 1, lift at 1.
  destruct (hook_says_no _ rc) as [[]|]; simpl; [by eauto| |by eauto].
  destruct (response rc) as [resp|] eqn:Hresp; [|by eauto].
  destruct (errors resp) eqn:Herr; [by eauto|].
  destruct (data resp) as [d|] eqn:Hd; [|by eauto].
  destruct (overallCachePolicy rc) as [policy|] eqn:Hp; [|by eauto].
  destruct (decide (maxAge policy ≤ 0)%Z); [by eauto|].
  destruct (Hnc d policy). exists resp. repeat split; try done. lia.
Qed.

Lemma willSendResponse_effects options rc c w r c' w' :
  willSendResponse options rc (c, w) = (r, (c', w')) →
  c' = c ∧
  (w' = w ∨ w' = logged w [ConsoleWarn no_sessionId_hook_warning] ∨
   ∃ d policy ctx k,
     cacheable rc d policy ∧
     cacheKeyString (objects w) (baseCacheKey c, ctx) = Ok k ∧
     w' = written w (fqc +:+ k) (payload d) (maxAge policy)).
Proof.
  unfold willSendResponse.
  unfold mbind at 1, M_bind at 1, lift at 1.
  destruct (isGraphQLQuery rc) as [[]|] eqn:Hq; simpl;
    [|intros [= <- <- <-]; by auto..].
  unfold mbind at 1, M_bind at 1, lift at 1.
  destruct (hook_says_no _ rc) as [[]|] eqn:Hw; simpl;
    [intros [= <- <- <-]; by auto| |intros [= <- <- <-]; by auto].
  destruct (response rc) as [resp|] eqn:Hresp; [|intros [= <- <- <-]; by auto].
  destruct (errors resp) eqn:Herr; [intros [= <- <- <-]; by auto|].
  destruct (data resp) as [d|] eqn:Hd; [|intros [= <- <- <-]; by auto].
  destruct (overallCachePolicy rc) as [policy|] eqn:Hp; [|intros [= <- <- <-]; by auto].
  destruct (decide (maxAge policy ≤ 0)%Z); [intros [= <- <- <-]; by auto|].
  assert (cacheable rc d policy) as Hc.
  { exists resp. repeat split; try done. lia. }
  unfold mbind at 1, M_bind at 1, get_closure. simpl.
  destruct (baseCacheKey c) eqn:Hb; [|intros [= <- <- <-]; by auto].
  assert (∀ ctx,
    cacheSetInBackground ctx (JObj [("data", JObj d)]) (maxAge policy) (c, w)
      = (r, (c', w')) →
    c' = c ∧ (w' = w ∨ w' = logged w [ConsoleWarn no_sessionId_hook_warning] ∨
      ∃ d policy ctx k, cacheable rc d policy ∧
        cacheKeyString (objects w) (Some b, ctx) = Ok k ∧
        w' = written w (fqc +:+ k) (payload d) (maxAge policy))) as Hset.
  { intros ctx. rewrite cacheSetInBackground_run, Hb.
    destruct (cacheKeyString _ _) as [k|] eqn:Hk; intros [= <- <- <-]; [|by auto].
    split; [done|]. right; right. by exists d, policy, ctx, k. }
  destruct (decide (scope policy = Private_scope)).
  - destruct (opt_sessionId options).
    + destruct (sessionId c); [apply Hset|intros [= <- <- <-]; by auto].
    + unfold emit, logged. munfold. simpl. intros [= <- <- <-]. by auto.
  - apply Hset.
Qed.

Lemma read_agree parse (st st2 : gmap string string) key :
  st2 !! key = st !! key → read parse st2 key = read parse st key.
Proof. unfold read. by intros ->. Qed.

Lemma cacheGet_isolated parse ctx c w kA r c' w' :
  (∀ k, cacheKeyString (objects w) (baseCacheKey c, ctx) = Ok k → fqc +:+ k ≠ kA) →
  cacheGet parse ctx (c, w) = (r, (c', w')) →
  c' = c ∧ objects w' = objects w ∧ store w' = store w ∧
  (∃ evs, trace w' = trace w ++ evs ∧ StoreGet kA ∉ evs) ∧
  ∀ st2, (∀ k, k ≠ kA → st2 !! k = store w !! k) →
    cacheGet parse ctx (c, with_store w st2) = (r, (c, with_store w' st2)).
Proof.
  intros Hne. rewrite cacheGet_run.
  destruct (cacheKeyString _ _) as [k|e] eqn:Hk.
  - intros [= <- <- <-]. specialize (Hne k eq_refl).
    repeat split; try done.
    + eexists. split; [done|]. intros [= ?]%list_elem_of_singleton. congruence.
    + intros st2 Hst2. rewrite cacheGet_run. simpl. rewrite Hk.
      rewrite (read_agree parse (store w)); [done|]. by apply Hst2.
  - intros [= <- <- <-]. repeat split; try done.
    + exists []. split; [by rewrite app_nil_r|]. apply not_elem_of_nil.
    + intros st2 _. rewrite cacheGet_run. simpl. by rewrite Hk.
Qed.

Lemma lookup_isolated parse c w kA r c' w' :
  (∀ ctx k, ctx ∈ lookup_contexts (sessionId c) →
     cacheKeyString (objects w) (baseCacheKey c, ctx) = Ok k → fqc +:+ k ≠ kA) →
  lookup parse (c, w) = (r, (c', w')) →
  c' = c ∧ objects w' = objects w ∧ store w' = store w ∧
  (∃ evs, trace w' = trace w ++ evs ∧ StoreGet kA ∉ evs) ∧
  ∀ st2, (∀ k, k ≠ kA → st2 !! k = store w !! k) →
    lookup parse (c, with_store w st2) = (r, (c, with_store w' st2)).
Proof.
  intros Hne. unfold lookup.
  unfold mbind at 1 3, M_bind at 1 3, get_closure. simpl.
  destruct (sessionId c) as [sid|]; simpl in Hne.
  - unfold mbind, M_bind, mret, M_ret.
    change {| sessionMode := Private; ctx_sessionId := Some sid |}
      with (private_session sid).
    change {| sessionMode := AuthenticatedPublic; ctx_sessionId := None |}
      with authenticated_public.
    destruct (cacheGet parse (private_session sid) (c, w)) as [r1 [c1 w1]] eqn:H1.
    destruct (cacheGet_isolated parse (private_session sid) c w kA r1 c1 w1)
      as (-> & Ho1 & Hs1 & (evs1 & Ht1 & Hn1) & Hst1); [|done|].
    { intros k. apply Hne. set_solver. }
    destruct r1 as [[r1|]|e].
    + intros [= <- <- <-]. repeat split; try done; [by eauto|].
      intros st2 Hst2. by rewrite (Hst1 st2 Hst2).
    + intros H2.
      destruct (cacheGet_isolated parse authenticated_public c w1 kA r c' w')
        as (-> & Ho2 & Hs2 & (evs2 & Ht2 & Hn2) & Hst2); [|done|].
      { intros k. rewrite Ho1. apply Hne. set_solver. }
      repeat split; try congruence.
      * exists (evs1 ++ evs2). rewrite Ht2, Ht1, app_assoc. split; [done|].
        rewrite elem_of_app. tauto.
      * intros st2 Hagree. rewrite (Hst1 st2 Hagree).
        apply (Hst2 st2). intros k Hk. rewrite Hs1. by apply Hagree.
    + intros [= <- <- <-]. repeat split; try done; [by eauto|].
      intros st2 Hst2. by rewrite (Hst1 st2 Hst2).
  - intros H. apply (cacheGet_isolated parse no_session c w kA); [|done].
    intros k. apply Hne. set_solver.
Qed.

Lemma stringify_key_shape h key s :
  stringify_key h key = Ok s → ∃ ps, s = ser (JObj (ps ++ contextual_fields key.2)).
Proof.
  unfold stringify_key. destruct (from_option _ _ _) as [ps|]; simpl; [|done].
  intros [= <-]. by exists ps.
Qed.

Lemma stringify_key_context h key s :
  plugin_context key.2 → stringify_key h key = Ok s → session_context_of s = Some key.2.
Proof.
  intros Hctx [ps ->]%stringify_key_shape. by apply session_context_of_object.
Qed.

Lemma lookup_contexts_plugin sid ctx : ctx ∈ lookup_contexts sid → plugin_context ctx.
Proof.
  unfold plugin_context.
  destruct sid; simpl; rewrite ?elem_of_cons, ?elem_of_nil;
    intros H; destruct_or!; subst; simpl; try done;
    (split; [done|intros [? [=]]]).
Qed.

Lemma private_session_plugin A : plugin_context (private_session A).
Proof. unfold plugin_context. simpl. split; eauto. Qed.

Lemma lookup_contexts_other sid A ctx :
  sid ≠ Some A → ctx ∈ lookup_contexts sid → ctx ≠ private_session A.
Proof.
  intros Hne. destruct sid; simpl; rewrite ?elem_of_cons, ?elem_of_nil;
    intros H; destruct_or!; subst; try done.
  intros [= ->]. done.
Qed.

Lemma lookup_keeps parse c w r c' w' :
  lookup parse (c, w) = (r, (c', w')) → c' = c ∧ objects w' = objects w.
Proof.
  unfold lookup. unfold mbind at 1, M_bind at 1, get_closure. simpl.
  destruct (sessionId c) as [sid|].
  - unfold mbind, M_bind, mret, M_ret. rewrite cacheGet_run.
    destruct (cacheKeyString _ _); [|by intros [= <- <- <-]].
    destruct (read _ _ _) as [[]|]; [by intros [= <- <- <-]| |by intros [= <- <- <-]].
    rewrite cacheGet_run. simpl.
    destruct (cacheKeyString _ _); by intros [= <- <- <-].
  - rewrite cacheGet_run. destruct (cacheKeyString _ _); by intros [= <- <- <-].
Qed.

Lemma reframe_with_store w st : reframe w st (trace w) = with_store w st.
Proof. done. Qed.

Lemma executor_isolated parse options rc c w r c' w' kA :
  executor parse options rc (c, w) = (r, (c', w')) →
  (∀ ctx k, ctx ∈ lookup_contexts (sessionId c') →
     cacheKeyString (objects w') (baseCacheKey c', ctx) = Ok k → fqc +:+ k ≠ kA) →
  (∃ evs, trace w' = trace w ++ evs ∧ StoreGet kA ∉ evs) ∧
  ∀ st2, (∀ k, k ≠ kA → st2 !! k = store w !! k) →
    executor parse options rc (c, with_store w st2) = (r, (c', with_store w' st2)).
Proof.
  assert (∃ evs, trace w = trace w ++ evs ∧ StoreGet kA ∉ evs) as Hnil.
  { exists []. split; [by rewrite app_nil_r|apply not_elem_of_nil]. }
  rewrite executor_cases. intros Hrun Hne.
  destruct (isGraphQLQuery rc) as [[]|] eqn:Hq.
  2,3: injection Hrun as <- <- <-; split; [done|];
       intros st2 _; by rewrite executor_cases, Hq.
  destruct (populate options rc (c, w)) as [rp [c1 w1]] eqn:Hpop.
  destruct (populate_keeps _ _ _ _ _ _ _ Hpop) as [Hs1 Ht1].
  assert (∀ st2, populate options rc (c, with_store w st2)
                 = (rp, (c1, with_store w1 st2))) as Hpop2.
  { intros st2. rewrite <- reframe_with_store, populate_frame, Hpop.
    by rewrite <- Ht1. }
  destruct rp as [[]|e].
  2: { injection Hrun as <- <- <-. rewrite Ht1. split; [done|].
       intros st2 _. by rewrite executor_cases, Hq, Hpop2. }
  destruct (hook_says_no _ rc) as [[]|] eqn:Hskip.
  1,3: injection Hrun as <- <- <-; rewrite Ht1; split; [done|];
       intros st2 _; by rewrite executor_cases, Hq, Hpop2, Hskip.
  destruct (lookup_keeps _ _ _ _ _ _ Hrun) as [-> Ho].
  destruct (lookup_isolated parse c1 w1 kA r c1 w') as (_ & _ & _ & Hev & Hst2); [|done|].
  { intros ctx k. rewrite <- Ho. apply Hne. }
  rewrite <- Ht1. split; [done|].
  intros st2 Hagree. rewrite executor_cases, Hq, Hpop2, Hskip.
  apply Hst2. intros k Hk. rewrite Hs1. by apply Hagree.
Qed.

(** C1. Private isolation. Take the text [sA] of any cache key under
    [{Private, sessionId = A}], and a run of the executor that ends with a
    session id other than [A] (another session, or none). If the digest
    does not confuse [sA] with the texts of the keys this run looks up,
    then the run never reads the store under the key of [sA], and it
    returns the same result and reaches the same state whatever the store
    holds under that key. *)
Theorem private_isolation parse options rc c w r c' w' hA keyA A sA :
  executor parse options rc (c, w) = (r, (c', w')) →
  stringify_key hA (keyA, private_session A) = Ok sA →
  sessionId c' ≠ Some A →
  Forall (λ ctx, ∀ s, stringify_key (objects w') (baseCacheKey c', ctx) = Ok s →
                      collision_free s sA)
         (lookup_contexts (sessionId c')) →
  (∃ evs, trace w' = trace w ++ evs ∧ StoreGet (fqc +:+ sha sA) ∉ evs) ∧
  ∀ st2, (∀ k, k ≠ fqc +:+ sha sA → st2 !! k = store w !! k) →
    executor parse options rc (c, with_store w st2) = (r, (c', with_store w' st2)).
Proof.
  intros Hrun HA Hsid Hcf. apply executor_isolated; [done|].
  intros ctx k Hctx Hk Heq.
  unfold cacheKeyString in Hk.
  destruct (stringify_key (objects w') _) as [s|] eqn:Hs; simpl in Hk; [|done].
  injection Hk as <-. apply (inj (String.app fqc)) in Heq.
  rewrite Forall_forall in Hcf. apply (Hcf ctx Hctx s Hs) in Heq as ->.
  apply stringify_key_context in Hs; [|by eapply lookup_contexts_plugin].
  apply stringify_key_context in HA; [|apply private_session_plugin].
  simpl in *. rewrite HA in Hs. injection Hs as Hs.
  by eapply lookup_contexts_other.
Qed.







(** C3. Session mode of the write key. For a cacheable response, with the
    base key set: under scope [Private], no [sessionId] hook means a
    warning and no write, a hook with session id [null] means nothing at
    all, and otherwise the write goes under [{Private, sessionId}]; under
    scope [Public] the write goes under [NoSession] without a session id
    and under [AuthenticatedPublic] with one. The value is the payload, the
    ttl is [maxAge]. *)
Theorem write_key_selection options rc c w d policy base fields :
  isGraphQLQuery rc = Ok true →
  hook_says_no (opt_shouldWriteToCache options) rc = Ok false →
  cacheable rc d policy →
  baseCacheKey c = Some base →
  base_fields (objects w) base = Ok fields →
  willSendResponse options rc (c, w) =
  match scope policy, opt_sessionId options, sessionId c with
  | Private_scope, None, _ =>
      (Ok (), (c, logged w [ConsoleWarn no_sessionId_hook_warning]))
  | Private_scope, Some _, None => (Ok (), (c, w))
  | Private_scope, Some _, Some sid =>
      (Ok (), (c, written w (key_of fields (private_session sid)) (payload d) (maxAge policy)))
  | Public, _, None =>
      (Ok (), (c, written w (key_of fields no_session) (payload d) (maxAge policy)))
  | Public, _, Some _ =>
      (Ok (), (c, written w (key_of fields authenticated_public) (payload d) (maxAge policy)))
  end.
Proof.
  intros Hq Hw Hc Hbase Hfields.
  rewrite (willSendResponse_cacheable _ _ _ _ d policy Hq Hw Hc), Hbase.
  assert (∀ ctx, cacheSetInBackground ctx (JObj [("data", JObj d)]) (maxAge policy) (c, w)
                 = (Ok (), (c, written w (key_of fields ctx) (payload d) (maxAge policy))))
    as Hset.
  { intros ctx. rewrite cacheSetInBackground_run, Hbase.
    by rewrite (cacheKeyString_fields _ _ _ _ Hfields). }
  destruct (scope policy), (opt_sessionId options), (sessionId c); by rewrite ?Hset.
Qed.

Lemma not_wrote_self w : ¬ wrote w w.
Proof.
  intros (evs & k & v & ttl & Ht & Hin).
  assert (evs = []) as ->.
  { apply (inj (app (trace w))). by rewrite app_nil_r. }
  by apply elem_of_nil in Hin.
Qed.

Lemma not_wrote_warn w msg : ¬ wrote w (logged w [ConsoleWarn msg]).
Proof.
  intros (evs & k & v & ttl & Ht & Hin). simpl in Ht.
  apply (inj (app (trace w))) in Ht as <-.
  by apply list_elem_of_singleton in Hin.
Qed.

(** C4, as amended. A store write happens only if the response has no
    [errors], has a [data] payload (an empty object counts), a cache policy
    was supplied and its [maxAge] is positive. *)
Theorem cacheability_gate options rc c w r c' w' :
  willSendResponse options rc (c, w) = (r, (c', w')) →
  (wrote w w' ∨ store w' ≠ store w) →
  ∃ resp d policy,
    response rc = Some resp ∧ errors resp = None ∧ data resp = Some d ∧
    overallCachePolicy rc = Some policy ∧ (0 < maxAge policy)%Z.
Proof.
  intros Hrun Hw.
  destruct (willSendResponse_effects _ _ _ _ _ _ _ Hrun)
    as [_ [->|[->|(d & policy & _ & _ & (resp & ?) & _)]]].
  - destruct Hw as [Hw|Hw]; [by apply not_wrote_self in Hw|done].
  - destruct Hw as [Hw|Hw]; [by apply not_wrote_warn in Hw|done].
  - by exists resp, d, policy.
Qed.

(** C5. Base-key invariant. When the write path reaches a cacheable
    response and the base cache key was never set, it throws, and neither
    the store nor anything else has changed. *)
Theorem base_key_invariant options rc c w d policy :
  isGraphQLQuery rc = Ok true →
  hook_says_no (opt_shouldWriteToCache options) rc = Ok false →
  cacheable rc d policy →
  baseCacheKey c = None →
  willSendResponse options rc (c, w) = (Throw invariant_error, (c, w)).
Proof.
  intros Hq Hw Hc Hbase.
  by rewrite (willSendResponse_cacheable _ _ _ _ d policy Hq Hw Hc), Hbase.
Qed.

(** C6. Only the data is persisted. Every value [willSendResponse] writes
    is the serialization of [{ data: response.data }] and nothing else of
    the response, and it is what the store then holds under the key. *)
Theorem only_data_persisted options rc c w r c' w' :
  willSendResponse options rc (c, w) = (r, (c', w')) →
  ∃ evs, trace w' = trace w ++ evs ∧
    ∀ key value ttl, StoreSet key value ttl ∈ evs →
      ∃ resp d, response rc = Some resp ∧ data resp = Some d ∧
                value = ser (JObj [("data", JObj d)]) ∧
                store w' !! key = Some value.
Proof.
  intros Hrun.
  destruct (willSendResponse_effects _ _ _ _ _ _ _ Hrun)
    as [_ [->|[->|(d & policy & ctx & k & (resp & ? & ? & ? & ?) & _ & ->)]]].
  - exists []. split; [by rewrite app_nil_r|]. intros ??? H. by apply elem_of_nil in H.
  - eexists. split; [done|]. intros ??? H. by apply list_elem_of_singleton in H.
  - eexists. split; [done|]. intros key value ttl [= -> -> ->]%list_elem_of_singleton.
    exists resp, d. repeat split; try done. simpl. by rewrite lookup_insert_eq.
Qed.

(** C7. Skipping the read keeps the state. When [shouldReadFromCache] is
    there and returns [false], the executor answers "no cached result"
    with the store and the trace untouched, and with the session id and
    the base cache key set from the hooks and the request. *)
Theorem should_read_skip_preserves_state parse options rc c w f sid extra props :
  isGraphQLQuery rc = Ok true →
  opt_shouldReadFromCache options = Some f →
  f rc = Ok (Value false) →
  resolved_sessionId options rc c = Ok sid →
  resolved_extra options rc = Ok extra →
  variables_props rc (objects w) = Ok props →
  executor parse options rc (c, w) =
  (Ok None, (populated rc sid extra (objects w), with_copy w props)).
Proof.
  intros Hq Hhook Hf Hsid Hextra Hprops.
  rewrite executor_cases, Hq, (populate_run _ _ _ _ _ _ _ Hsid Hextra Hprops).
  unfold hook_says_no. rewrite Hhook, Hf. done.
Qed.

(** C9. Determinism of the serializer. Two cache keys with the same
    document text, operation name, variables (as JSON values, order of
    keys included), extra data and contextual fields get the same store
    key, wherever their variables live; and every store key is 64
    hexadecimal digits. *)
Theorem serializer_determinism h1 h2 b1 b2 ctx :
  key_documentText b1 = key_documentText b2 →
  key_operationName b1 = key_operationName b2 →
  JSON_view h1 (VRef (key_variables b1)) = JSON_view h2 (VRef (key_variables b2)) →
  key_extra b1 = key_extra b2 →
  cacheKeyString h1 (Some b1, ctx) = cacheKeyString h2 (Some b2, ctx) ∧
  ∀ k, cacheKeyString h1 (Some b1, ctx) = Ok k →
       String.length k = 64 ∧ Forall hex_char (chars k).
Proof.
  intros Hdoc Hop Hvars Hextra. split.
  - unfold cacheKeyString, stringify_key, base_fields, base_fields_of. simpl.
    by rewrite Hdoc, Hop, Hvars, Hextra.
  - unfold cacheKeyString. destruct (stringify_key h1 _) as [s|]; simpl; [|done].
    intros k [= <-]. split; [apply sha_length|apply sha_hex].
Qed.



Lemma private_isolation_witness :
  (∃ evs, trace (after_read (session_hook (Some "bob"))).2 = trace world0 ++ evs ∧
          StoreGet (fqc +:+ sha alice_text) ∉ evs) ∧
  ∀ st2, (∀ k, k ≠ fqc +:+ sha alice_text → st2 !! k = store world0 !! k) →
    executor keep_text (session_hook (Some "bob")) (answered user_data public_60)
      (initial_closure, with_store world0 st2) =
    (Ok None, ((after_read (session_hook (Some "bob"))).1,
               with_store (after_read (session_hook (Some "bob"))).2 st2)).
Proof.
  apply (private_isolation keep_text (session_hook (Some "bob"))
           (answered user_data public_60) initial_closure world0 (Ok None)
           (after_read (session_hook (Some "bob"))).1
           (after_read (session_hook (Some "bob"))).2
           (objects copied_world) (Some user_base) "alice" alice_text).
  - vm_compute. reflexivity.
  - vm_compute. reflexivity.
  - vm_compute. discriminate.
  - repeat constructor; intros s Hs Hsha; vm_compute in Hs; injection Hs as <-;
      vm_compute in Hsha; discriminate.
Defined.

Lemma write_key_selection_witness :
  willSendResponse (session_hook (Some "bob")) (answered user_data private_60)
    (bob_closure, copied_world) =
  match scope private_60, opt_sessionId (session_hook (Some "bob")),
        sessionId bob_closure with
  | Private_scope, None, _ =>
      (Ok (), (bob_closure, logged copied_world [ConsoleWarn no_sessionId_hook_warning]))
  | Private_scope, Some _, None => (Ok (), (bob_closure, copied_world))
  | Private_scope, Some _, Some sid =>
      (Ok (), (bob_closure,
               written copied_world (key_of user_fields (private_session sid))
                 (payload user_data) (maxAge private_60)))
  | Public, _, None =>
      (Ok (), (bob_closure,
               written copied_world (key_of user_fields no_session)
                 (payload user_data) (maxAge private_60)))
  | Public, _, Some _ =>
      (Ok (), (bob_closure,
               written copied_world (key_of user_fields authenticated_public)
                 (payload user_data) (maxAge private_60)))
  end.
Proof.
  apply (write_key_selection (session_hook (Some "bob")) (answered user_data private_60)
           bob_closure copied_world user_data private_60 user_base user_fields).
  - reflexivity.
  - reflexivity.
  - eexists. repeat split; reflexivity.
  - reflexivity.
  - vm_compute. reflexivity.
Defined.

Lemma cacheability_gate_witness :
  ∃ resp d policy,
    response (answered user_data public_60) = Some resp ∧ errors resp = None ∧
    data resp = Some d ∧
    overallCachePolicy (answered user_data public_60) = Some policy ∧
    (0 < maxAge policy)%Z.
Proof.
  apply (cacheability_gate no_hooks (answered user_data public_60)
           (after_read no_hooks).1 (after_read no_hooks).2
           (after_write no_hooks user_data public_60).1
           (after_write no_hooks user_data public_60).2.1
           (after_write no_hooks user_data public_60).2.2).
  - vm_compute. reflexivity.
  - left. eexists [_], _, _, _. split; [vm_compute; reflexivity|].
    apply list_elem_of_here.
Defined.

(** C4 as stated fails: a response whose [data] is the empty object [{}]
    is written. (A query whose every field was skipped answers so.) *)
Lemma cacheability_gate_counterexample :
  ¬ (∀ options rc c w r c' w',
       willSendResponse options rc (c, w) = (r, (c', w')) →
       wrote w w' →
       ∃ resp d, response rc = Some resp ∧ data resp = Some d ∧ d ≠ []).
Proof.
  intros H.
  destruct (H no_hooks (answered [] public_60)
              (after_read no_hooks).1 (after_read no_hooks).2
              (after_write no_hooks [] public_60).1
              (after_write no_hooks [] public_60).2.1
              (after_write no_hooks [] public_60).2.2) as (resp & d & Hr & Hd & Hne).
  - vm_compute. reflexivity.
  - eexists [_], _, _, _. split; [vm_compute; reflexivity|]. apply list_elem_of_here.
  - injection Hr as <-. injection Hd as <-. done.
Qed.

Lemma base_key_invariant_witness :
  willSendResponse no_hooks (answered user_data public_60) (initial_closure, world0) =
  (Throw invariant_error, (initial_closure, world0)).
Proof.
  apply (base_key_invariant no_hooks (answered user_data public_60) initial_closure
           world0 user_data public_60).
  - reflexivity.
  - reflexivity.
  - eexists. repeat split; reflexivity.
  - reflexivity.
Defined.

Lemma only_data_persisted_witness :
  ∃ evs, trace (after_write no_hooks user_data public_60).2.2
         = trace (after_read no_hooks).2 ++ evs ∧
    ∀ key value ttl, StoreSet key value ttl ∈ evs →
      ∃ resp d, response (answered user_data public_60) = Some resp ∧
                data resp = Some d ∧
                value = ser (JObj [("data", JObj d)]) ∧
                store (after_write no_hooks user_data public_60).2.2 !! key = Some value.
Proof.
  apply (only_data_persisted no_hooks (answered user_data public_60)
           (after_read no_hooks).1 (after_read no_hooks).2
           (after_write no_hooks user_data public_60).1
           (after_write no_hooks user_data public_60).2.1).
  vm_compute. reflexivity.
Defined.

Lemma should_read_skip_preserves_state_witness :
  executor keep_text never_read (answered user_data public_60) (initial_closure, world0) =
  (Ok None, (bob_closure, copied_world)).
Proof.
  apply (should_read_skip_preserves_state keep_text never_read
           (answered user_data public_60) initial_closure world0
           (λ _, Ok (Value false)) (Some "bob") JNull [("id", VNum 7)]);
    reflexivity.
Defined.

Lemma serializer_determinism_witness :
  cacheKeyString two_copies (Some (user_base_at 1%positive), private_session "bob")
  = cacheKeyString two_copies (Some (user_base_at 5%positive), private_session "bob") ∧
  ∀ k, cacheKeyString two_copies (Some (user_base_at 1%positive), private_session "bob") = Ok k →
       String.length k = 64 ∧ Forall hex_char (chars k).
Proof.
  apply (serializer_determinism two_copies two_copies (user_base_at 1%positive) (user_base_at 5%positive));
    vm_compute; reflexivity.
Defined.


(** C8. The predicates are not awaited: [!hook(requestContext)] negates the
    promise itself, which is truthy, so a predicate that answers through a
    promise never skips anything. *)
Lemma unawaited_promise (rc : GraphQLRequestContext) (f : hook bool) (r : result bool) :
  f rc = Ok (Promise r) → hook_says_no (Some f) rc = Ok false.
Proof. intros Hf. unfold hook_says_no. by rewrite Hf. Qed.

(** C8 at a failing input: both predicates resolve to [false], and still the
    executor reads the store and returns the cached answer, and
    [willSendResponse] writes. *)
Lemma unawaited_predicates_read_and_write :
  (executor keep_text async_no (answered user_data public_60)
     (initial_closure, cached_world)).1
  = Ok (Some (JStr (payload user_data))) ∧
  trace (willSendResponse async_no (answered user_data public_60)
           (after_read async_no)).2.2
  = [StoreGet (key_of user_fields no_session);
     StoreSet (key_of user_fields no_session) (payload user_data) 60].
Proof. split; vm_compute; reflexivity. Qed.

(** X1. Mutations and subscriptions pass through: the executor answers
    "no cached result" and [willSendResponse] returns, and neither touches
    the closure, the heap, the store or the trace. *)
Theorem non_query_untouched parse options rc op s :
  operation rc = Some op → op ≠ query_op →
  executor parse options rc s = (Ok None, s) ∧
  willSendResponse options rc s = (Ok (), s).
Proof.
  intros Hop Hne.
  assert (isGraphQLQuery rc = Ok false) as Hq.
  { unfold isGraphQLQuery. rewrite Hop. by rewrite bool_decide_eq_false_2. }
  destruct s as [c w]. split.
  - by rewrite executor_cases, Hq.
  - unfold willSendResponse. unfold mbind at 1, M_bind at 1, lift at 1.
    by rewrite Hq.
Qed.

(** X2. A request context without an operation (a document that did not
    parse or validate) makes [isGraphQLQuery] dereference [undefined]: both
    entry points throw a TypeError and change nothing. *)
Theorem missing_operation_throws parse options rc s :
  operation rc = None →
  ∃ msg, executor parse options rc s = (Throw (TypeError msg), s) ∧
         willSendResponse options rc s = (Throw (TypeError msg), s).
Proof.
  intros Hop. eexists.
  assert (isGraphQLQuery rc = Throw (TypeError "Cannot read property 'operation' of undefined"))
    as Hq.
  { unfold isGraphQLQuery. by rewrite Hop. }
  destruct s as [c w]. split.
  - by rewrite executor_cases, Hq.
  - unfold willSendResponse. unfold mbind at 1, M_bind at 1, lift at 1.
    by rewrite Hq.
Qed.

(** X3. The hooks fail closed: when the [sessionId] hook or the
    [extraCacheKeyData] hook throws or rejects, the executor rejects with
    that error, the store and the heap are untouched and the base cache key
    is not set. *)
Theorem hook_failure_fails_closed parse options rc c w e :
  isGraphQLQuery rc = Ok true →
  resolved_sessionId options rc c = Throw e ∨
  (∃ sid, resolved_sessionId options rc c = Ok sid ∧ resolved_extra options rc = Throw e) →
  ∃ c', executor parse options rc (c, w) = (Throw e, (c', w)) ∧
        baseCacheKey c' = baseCacheKey c.
Proof.
  intros Hq H. rewrite executor_cases, Hq, populate_cases.
  destruct H as [->|(sid & -> & ->)]; by eauto.
Qed.

(** X4. When [shouldWriteToCache] returns [false], [willSendResponse]
    does nothing, whatever the response and the policy. *)
Theorem should_write_false_skips options rc f s :
  isGraphQLQuery rc = Ok true →
  opt_shouldWriteToCache options = Some f →
  f rc = Ok (Value false) →
  willSendResponse options rc s = (Ok (), s).
Proof.
  intros Hq Hhook Hf. destruct s as [c w].
  unfold willSendResponse. unfold mbind at 1, M_bind at 1, lift at 1.
  rewrite Hq. simpl. unfold mbind at 1, M_bind at 1, lift at 1.
  unfold hook_says_no. by rewrite Hhook, Hf.
Qed.

(** X5. Sensitivity to the session: two cache keys whose contextual
    fields differ (in session mode or in session id) never serialize to the
    same text, whatever their base fields. *)
Theorem context_changes_key_text h1 h2 key1 key2 s1 s2 :
  plugin_context key1.2 → plugin_context key2.2 →
  stringify_key h1 key1 = Ok s1 →
  stringify_key h2 key2 = Ok s2 →
  key1.2 ≠ key2.2 → s1 ≠ s2.
Proof.
  intros Hc1 Hc2 H1 H2 Hne ->.
  apply stringify_key_context in H1; [|done].
  apply stringify_key_context in H2; [|done].
  congruence.
Qed.

Lemma cacheKeyString_length h key k :
  cacheKeyString h key = Ok k → String.length k = 64.
Proof.
  unfold cacheKeyString. destruct (stringify_key h key); simpl; [|done].
  intros [= <-]. apply sha_length.
Qed.

Lemma cacheGet_reads parse ctx c w r c' w' :
  cacheGet parse ctx (c, w) = (r, (c', w')) →
  c' = c ∧ objects w' = objects w ∧ store w' = store w ∧
  ∃ evs, trace w' = trace w ++ evs ∧ length evs ≤ 1 ∧ Forall is_read evs.
Proof.
  rewrite cacheGet_run. destruct (cacheKeyString _ _) as [k|] eqn:Hk.
  - intros [= <- <- <-]. repeat split; try done.
    exists [StoreGet (fqc +:+ k)]. split; [done|]. split; [simpl; lia|].
    repeat constructor. eexists. split; [done|].
    exists k. split; [done|]. by eapply cacheKeyString_length.
  - intros [= <- <- <-]. repeat split; try done.
    exists []. rewrite app_nil_r. repeat split; [simpl; lia|constructor].
Qed.

Lemma lookup_reads parse c w r c' w' :
  lookup parse (c, w) = (r, (c', w')) →
  store w' = store w ∧
  ∃ evs, trace w' = trace w ++ evs ∧ length evs ≤ 2 ∧ Forall is_read evs.
Proof.
  unfold lookup. unfold mbind at 1, M_bind at 1, get_closure. simpl.
  destruct (sessionId c) as [sid|].
  - unfold mbind, M_bind, mret, M_ret.
    destruct (cacheGet parse _ (c, w)) as [r1 [c1 w1]] eqn:H1.
    apply cacheGet_reads in H1 as (-> & Ho1 & Hs1 & evs1 & Ht1 & Hl1 & Hr1).
    destruct r1 as [[r1|]|e].
    + intros [= <- <- <-]. split; [done|]. exists evs1. repeat split; try done. lia.
    + intros (_ & Ho2 & Hs2 & evs2 & Ht2 & Hl2 & Hr2)%cacheGet_reads.
      split; [congruence|]. exists (evs1 ++ evs2).
      rewrite Ht2, Ht1, app_assoc, length_app, Forall_app. repeat split; try done. lia.
    + intros [= <- <- <-]. split; [done|]. exists evs1. repeat split; try done. lia.
  - intros (_ & _ & Hs & evs & Ht & Hl & Hr)%cacheGet_reads.
    split; [done|]. exists evs. repeat split; try done. lia.
Qed.

(** X7. Every run of the executor, whatever its outcome, leaves the store
    as it was and performs at most two operations, each a read under a key
    that is [fqc:] followed by 64 characters. *)
Theorem executor_reads_only parse options rc c w r c' w' :
  executor parse options rc (c, w) = (r, (c', w')) →
  store w' = store w ∧
  ∃ evs, trace w' = trace w ++ evs ∧ length evs ≤ 2 ∧ Forall is_read evs.
Proof.
  assert (∃ evs, trace w = trace w ++ evs ∧ length evs ≤ 2 ∧ Forall is_read evs) as Hnil.
  { exists []. rewrite app_nil_r. repeat split; [simpl; lia|constructor]. }
  rewrite executor_cases.
  destruct (isGraphQLQuery rc) as [[]|]; [|by intros [= <- <- <-]..].
  destruct (populate options rc (c, w)) as [rp [c1 w1]] eqn:Hpop.
  destruct (populate_keeps _ _ _ _ _ _ _ Hpop) as [Hs1 Ht1].
  rewrite <- Hs1, <- Ht1.
  destruct rp as [[]|]; [|intros [= <- <- <-]; split; [done|]; by rewrite Ht1].
  destruct (hook_says_no _ rc) as [[]|];
    [intros [= <- <- <-]; split; [done|]; by rewrite Ht1| |
     intros [= <- <- <-]; split; [done|]; by rewrite Ht1].
  apply lookup_reads.
Qed.

(** X8. The executor changes none of the objects that existed; the
    variables of the base key it sets are a new object. *)
Theorem executor_keeps_objects parse options rc c w r c' w' :
  executor parse options rc (c, w) = (r, (c', w')) →
  (∀ l, is_Some (objects w !! l) → objects w' !! l = objects w !! l) ∧
  (baseCacheKey c' = baseCacheKey c ∨
   ∃ base, baseCacheKey c' = Some base ∧ objects w !! key_variables base = None ∧
           is_Some (objects w' !! key_variables base)).
Proof.
  rewrite executor_cases.
  destruct (isGraphQLQuery rc) as [[]|]; [|intros [= <- <- <-]; by auto..].
  rewrite populate_cases.
  assert (∀ props (l : loc),
    is_Some (objects w !! l) →
    objects (with_copy w props) !! l = objects w !! l) as Hold.
  { intros props l [o Hl]. simpl. apply lookup_insert_ne.
    intros Heq. assert (objects w !! fresh (dom (objects w)) = None) as Hf.
    { apply not_elem_of_dom, is_fresh. }
    rewrite Heq in Hf. congruence. }
  assert (∀ props sid extra,
    ∃ base, baseCacheKey (populated rc sid extra (objects w)) = Some base ∧
            objects w !! key_variables base = None ∧
            is_Some (objects (with_copy w props) !! key_variables base)) as Hnew.
  { intros props sid extra. eexists. split; [done|]. simpl. split.
    - apply not_elem_of_dom, is_fresh.
    - rewrite lookup_insert_eq. by eauto. }
  destruct (resolved_sessionId options rc c) as [sid|]; [|intros [= <- <- <-]; by auto].
  destruct (resolved_extra options rc) as [extra|]; [|intros [= <- <- <-]; by auto].
  destruct (variables_props rc (objects w)) as [props|]; [|intros [= <- <- <-]; by auto].
  destruct (hook_says_no _ rc) as [[]|].
  - intros [= <- <- <-]. split; [by apply Hold|right; apply Hnew].
  - intros [-> Ho]%lookup_keeps. rewrite Ho.
    split; [by apply Hold|right; apply Hnew].
  - intros [= <- <- <-]. split; [by apply Hold|right; apply Hnew].
Qed.


Lemma willSendResponse_writes options rc c w d policy base fields ctx :
  isGraphQLQuery rc = Ok true →
  hook_says_no (opt_shouldWriteToCache options) rc = Ok false →
  cacheable rc d policy →
  baseCacheKey c = Some base →
  base_fields (objects w) base = Ok fields →
  write_context options c policy = Some ctx →
  willSendResponse options rc (c, w) =
  (Ok (), (c, written w (key_of fields ctx) (payload d) (maxAge policy))).
Proof.
  intros Hq Hw Hc Hbase Hfields Hctx.
  rewrite (willSendResponse_cacheable _ _ _ _ d policy Hq Hw Hc), Hbase.
  unfold write_context in Hctx.
  destruct (scope policy), (opt_sessionId options), (sessionId c); simplify_eq/=;
    rewrite cacheSetInBackground_run, Hbase;
    by rewrite (cacheKeyString_fields _ _ _ _ Hfields).
Qed.

(** X10. What is written is found again. After [willSendResponse] has
    written a cacheable answer under some context, a later request whose
    base fields serialize to the same values and whose session reads
    under that context (the same session for a private answer, no session
    for an anonymous one, any session at all for an authenticated public
    one), read on a fresh closure, gets that answer back, provided that
    for an authenticated public answer no private entry of the reader was
    in the store before. *)
Theorem cached_answer_is_served parse options rc c w d policy base fields ctx
    options2 rc2 c2 w3 base2 j :
  isGraphQLQuery rc = Ok true →
  hook_says_no (opt_shouldWriteToCache options) rc = Ok false →
  cacheable rc d policy →
  baseCacheKey c = Some base →
  base_fields (objects w) base = Ok fields →
  write_context options c policy = Some ctx →
  isGraphQLQuery rc2 = Ok true →
  populate options2 rc2 (initial_closure, (willSendResponse options rc (c, w)).2.2)
  = (Ok (), (c2, w3)) →
  hook_says_no (opt_shouldReadFromCache options2) rc2 = Ok false →
  ctx ∈ lookup_contexts (sessionId c2) →
  baseCacheKey c2 = Some base2 →
  base_fields (objects w3) base2 = Ok fields →
  (∀ sid, sessionId c2 = Some sid → ctx = authenticated_public →
     store w !! key_of fields (private_session sid) = None) →
  parse (payload d) = Ok j →
  (executor parse options2 rc2
     (initial_closure, (willSendResponse options rc (c, w)).2.2)).1 = Ok (Some j).
Proof.
  intros Hq Hw Hc Hbase Hfields Hctx.
  rewrite (willSendResponse_writes _ _ _ _ d policy base fields ctx) by done.
  set (w2 := written w (key_of fields ctx) (payload d) (maxAge policy)).
  assert (w2 = written w (key_of fields ctx) (payload d) (maxAge policy)) as Hw2 by done.
  clearbody w2. cbn [snd].
  intros Hq2 Hpop Hskip Hin Hbase2 Hfields2 Hmiss Hparse.
  destruct (populate_keeps _ _ _ _ _ _ _ Hpop) as [Hs3 _].
  rewrite executor_cases, Hq2, Hpop, Hskip.
  rewrite (lookup_run parse c2 w3 base2 fields Hbase2 Hfields2).
  rewrite Hs3, Hw2. simpl.
  destruct (sessionId c2) as [sid|] eqn:Hs; simpl in Hin.
  - apply elem_of_cons in Hin as [->|Hin].
    + rewrite lookup_insert_eq. simpl. by rewrite Hparse.
    + apply list_elem_of_singleton in Hin as ->.
      destruct (decide (key_of fields (private_session sid)
                        = key_of fields authenticated_public)) as [Heq|Hne].
      * rewrite Heq, lookup_insert_eq. simpl. by rewrite Hparse.
      * rewrite lookup_insert_ne by done. rewrite Hmiss by done. simpl.
        unfold read. by rewrite lookup_insert_eq, Hparse.
  - apply list_elem_of_singleton in Hin as ->.
    simpl. unfold read. by rewrite lookup_insert_eq, Hparse.
Qed.




Lemma body_fwd_escape_char c r :
  body_fwd (chars (escape_char c) ++ r) = chars (escape_char c) ++ body_fwd r.
Proof. destruct c as [[] [] [] [] [] [] [] []]; reflexivity. Qed.

Lemma body_fwd_escape s r :
  body_fwd (chars (escape s) ++ DQUOTE :: r) = chars (escape s).
Proof.
  induction s as [|c s IH]; simpl.
  - done.
  - rewrite chars_app, <- app_assoc, body_fwd_escape_char. by rewrite IH.
Qed.

Lemma stringify_key_base h b ctx s :
  stringify_key h (Some b, ctx) = Ok s →
  ∃ vars, s = ser (JObj (base_fields_of b vars ++ contextual_fields ctx)).
Proof.
  unfold stringify_key, base_fields. cbn [fst snd from_option].
  destruct (JSON_view h _) as [vars|]; [|done].
  intros H. exists vars. symmetry. by injection H.
Qed.

Lemma document_of_key h b ctx s :
  stringify_key h (Some b, ctx) = Ok s → document_of s = key_documentText b.
Proof.
  intros [vars ->]%stringify_key_base. rewrite ser_object. unfold base_fields_of.
  rewrite <- app_comm_cons. unfold members at 1. cbn [omap list_omap snd fst].
  rewrite join_cons.
  2: { destruct (key_operationName b); cbn [from_option]; intros [=]. }
  unfold document_of. cbn [ser]. unfold quote at 2. rewrite !chars_app. simpl chars.
  rewrite !chars_app. cbn [app drop]. rewrite <- app_assoc. cbn [chars app].
  rewrite drop_0, <- app_assoc. cbn [app].
  rewrite body_fwd_escape, unescape_escape, string_of_chars. done.
Qed.

(** X6. Sensitivity to the document: two cache keys with different
    document texts never serialize to the same text. *)
Theorem document_changes_key_text h1 h2 b1 b2 ctx1 ctx2 s1 s2 :
  stringify_key h1 (Some b1, ctx1) = Ok s1 →
  stringify_key h2 (Some b2, ctx2) = Ok s2 →
  key_documentText b1 ≠ key_documentText b2 →
  s1 ≠ s2.
Proof.
  intros H1%document_of_key H2%document_of_key Hne ->. congruence.
Qed.

Lemma non_query_untouched_witness :
  executor keep_text no_hooks mutation_context (initial_closure, world0)
  = (Ok None, (initial_closure, world0)) ∧
  willSendResponse no_hooks mutation_context (initial_closure, world0)
  = (Ok (), (initial_closure, world0)).
Proof.
  apply (non_query_untouched keep_text no_hooks mutation_context mutation_op
           (initial_closure, world0)); [reflexivity|discriminate].
Defined.

Lemma missing_operation_throws_witness :
  ∃ msg,
    executor keep_text no_hooks unparsed_context (initial_closure, world0)
    = (Throw (TypeError msg), (initial_closure, world0)) ∧
    willSendResponse no_hooks unparsed_context (initial_closure, world0)
    = (Throw (TypeError msg), (initial_closure, world0)).
Proof.
  apply (missing_operation_throws keep_text no_hooks unparsed_context
           (initial_closure, world0)). reflexivity.
Defined.

Lemma hook_failure_fails_closed_witness :
  ∃ c', executor keep_text rejecting_session (answered user_data public_60)
          (initial_closure, world0) = (Throw (Error "bad cookie"), (c', world0)) ∧
        baseCacheKey c' = baseCacheKey initial_closure.
Proof.
  apply (hook_failure_fails_closed keep_text rejecting_session
           (answered user_data public_60) initial_closure world0 (Error "bad cookie"));
    [reflexivity|left; reflexivity].
Defined.

Lemma should_write_false_skips_witness :
  willSendResponse never_write (answered user_data public_60) (after_read never_write)
  = (Ok (), after_read never_write).
Proof.
  apply (should_write_false_skips never_write (answered user_data public_60)
           (λ _, Ok (Value false)) (after_read never_write)); reflexivity.
Defined.

Lemma context_changes_key_text_witness : alice_text ≠ bob_text.
Proof.
  apply (context_changes_key_text (objects copied_world) (objects copied_world)
           (Some user_base, private_session "alice")
           (Some user_base, private_session "bob")).
  - apply private_session_plugin.
  - apply private_session_plugin.
  - vm_compute. reflexivity.
  - vm_compute. reflexivity.
  - discriminate.
Defined.

Lemma executor_reads_only_witness :
  store (after_read (session_hook (Some "bob"))).2 = store world0 ∧
  ∃ evs, trace (after_read (session_hook (Some "bob"))).2 = trace world0 ++ evs ∧
         length evs ≤ 2 ∧ Forall is_read evs.
Proof.
  apply (executor_reads_only keep_text (session_hook (Some "bob"))
           (answered user_data public_60) initial_closure world0
           (read_result (session_hook (Some "bob")))
           (after_read (session_hook (Some "bob"))).1).
  vm_compute. reflexivity.
Defined.

Lemma executor_keeps_objects_witness :
  (∀ l, is_Some (objects world0 !! l) →
        objects (after_read no_hooks).2 !! l = objects world0 !! l) ∧
  (baseCacheKey (after_read no_hooks).1 = baseCacheKey initial_closure ∨
   ∃ base, baseCacheKey (after_read no_hooks).1 = Some base ∧
           objects world0 !! key_variables base = None ∧
           is_Some (objects (after_read no_hooks).2 !! key_variables base)).
Proof.
  apply (executor_keeps_objects keep_text no_hooks (answered user_data public_60)
           initial_closure world0 (read_result no_hooks)).
  vm_compute. reflexivity.
Defined.


Lemma cached_answer_is_served_witness :
  (executor keep_text no_hooks (answered user_data public_60)
     (initial_closure,
      (willSendResponse no_hooks (answered user_data public_60)
         ((after_read no_hooks).1, (after_read no_hooks).2)).2.2)).1
  = Ok (Some (JStr (payload user_data))).
Proof.
  apply (cached_answer_is_served keep_text no_hooks (answered user_data public_60)
           (after_read no_hooks).1 (after_read no_hooks).2 user_data public_60
           user_base user_fields no_session no_hooks (answered user_data public_60)
           second_populate.2.1 second_populate.2.2
           {| key_documentText := user_query; key_operationName := Some "Q";
              key_variables := 3%positive; key_extra := JNull |}).
  - reflexivity.
  - reflexivity.
  - eexists. repeat split; reflexivity.
  - vm_compute. reflexivity.
  - vm_compute. reflexivity.
  - reflexivity.
  - reflexivity.
  - vm_compute. reflexivity.
  - reflexivity.
  - apply list_elem_of_here.
  - vm_compute. reflexivity.
  - vm_compute. reflexivity.
  - intros sid Hsid. vm_compute in Hsid. discriminate.
  - reflexivity.
Defined.


Lemma document_changes_key_text_witness :
  bob_text ≠ ser (JObj (base_fields_of other_base (JObj [("id", JNum 7)])
                         ++ contextual_fields (private_session "bob"))).
Proof.
  apply (document_changes_key_text (objects copied_world) (objects copied_world)
           user_base other_base (private_session "bob") (private_session "bob")).
  - vm_compute. reflexivity.
  - vm_compute. reflexivity.
  - discriminate.
Defined.

(** The copy is shallow: the nested object is shared with the caller, and
    changing it after the read changes the key of the write. *)
Example nested_mutation_changes_key :
  cacheKeyString (objects after_nested_read.2)
    (baseCacheKey after_nested_read.1, no_session)
  ≠ cacheKeyString (<[3%positive := HObject [("a", VNum 2)]]> (objects after_nested_read.2))
      (baseCacheKey after_nested_read.1, no_session).
Proof. vm_compute. discriminate. Qed.
